(* Verification of the SPIEGEL RAG frontend: time-interval planning
   (SearchPanel), citation rendering (AnalysisPanel), the search, selection,
   transfer and analysis actions of the application store (useAppStore) with
   the select-all button of ResultsDisplay, and the score statistics and
   histograms (ScoreVisualization). *)

From Stdlib Require Import ZArith QArith Qround Qminmax String Ascii List Bool Lia Lqa.
From Stdlib Require Import Sorted Permutation.
Import ListNotations.

(* ========================================================================== *)
(** * SearchPanel: [timeIntervalCalculation]                                   *)
(* ========================================================================== *)

Module SearchPanel.

Open Scope Z_scope.

(** The relevant fields of [SearchFormState] (types/index.ts). Years and
    interval size are JS numbers; the form only ever holds integers in them
    (range slider and a step-1 slider). *)
Record SearchFormState := mkSearchFormState {
  use_time_intervals : bool;
  year_start : Z;
  year_end : Z;
  time_interval_size : Z
}.

(** Result of the [useMemo] callback: [null], the warning string, or the
    object [{ summary, intervals }]. The summary string is kept as the two
    numbers it interpolates ([span], [num_intervals]); an interval string
    [`${currentStart}-${currentEnd}`] is kept as the pair of its numbers. *)
Inductive CalcResult :=
| CalcNull
| CalcMessage (msg : string)
| CalcIntervals (span num_intervals : Z) (intervals : list (Z * Z)).

Definition start_before_end_msg : string :=
  "Startjahr muss vor Endjahr liegen.".

(** [Math.ceil(span / time_interval_size)], with the division exact. *)
Definition num_intervals_of (span size : Z) : Z :=
  Qceiling (inject_Z span / inject_Z size).

(** The [while (currentStart <= year_end)] loop. [fuel] bounds the number of
    iterations; [None] means the loop had not finished after [fuel] rounds. *)
Fixpoint interval_loop (fuel : nat) (currentStart year_end size : Z)
  : option (list (Z * Z)) :=
  match fuel with
  | O => None
  | S fuel' =>
      if currentStart <=? year_end then
        let currentEnd := Z.min (currentStart + size - 1) year_end in
        option_map (cons (currentStart, currentEnd))
          (interval_loop fuel' (currentEnd + 1) year_end size)
      else Some []
  end.

(** [timeIntervalCalculation]; [None] when the loop runs out of [fuel]. *)
Definition timeIntervalCalculation (fuel : nat) (formState : SearchFormState)
  : option CalcResult :=
  if negb (use_time_intervals formState) then Some CalcNull
  else
    let year_start := year_start formState in
    let year_end := year_end formState in
    let time_interval_size := time_interval_size formState in
    if year_end <? year_start then Some (CalcMessage start_before_end_msg)
    else
      let span := year_end - year_start + 1 in
      let num_intervals := num_intervals_of span time_interval_size in
      match interval_loop fuel year_start year_end time_interval_size with
      | Some intervals => Some (CalcIntervals span num_intervals intervals)
      | None => None
      end.

(** Enough loop rounds for a range starting at [cs]. *)
Definition loop_fuel (cs ye : Z) : nat := S (Z.to_nat (ye - cs + 1)).

(** Windows [(s, e)] forming a contiguous chain from [cs] up to [ye]. *)
Fixpoint chain (cs ye : Z) (ws : list (Z * Z)) : Prop :=
  match ws with
  | [] => ye < cs
  | (s, e) :: rest => s = cs /\ cs <= e <= ye /\ chain (e + 1) ye rest
  end.

(** Consecutive windows touch: [windows[i].end + 1 == windows[i+1].start]. *)
Fixpoint contiguous (ws : list (Z * Z)) : Prop :=
  match ws with
  | (_, e) :: (((s', _) :: _) as rest) => e + 1 = s' /\ contiguous rest
  | _ => True
  end.

(** Number of windows containing year [y]. *)
Definition windows_containing (ws : list (Z * Z)) (y : Z) : nat :=
  length (filter (fun '(s, e) => (s <=? y) && (y <=? e)) ws).

Definition mkForm (ys ye size : Z) : SearchFormState :=
  mkSearchFormState true ys ye size.

End SearchPanel.

(* ========================================================================== *)
(** * Types (types/index.ts)                                                   *)
(* ========================================================================== *)

Module Types.

(** [ChunkMetadata]: the two fields the citation tooltip reads. *)
Record ChunkMetadata := mkChunkMetadata {
  Artikeltitel : option string;
  Datum : option string
}.

(** [Chunk]; scores are kept as rationals. *)
Record Chunk := mkChunk {
  id : Z;
  content : string;
  metadata : ChunkMetadata;
  relevance_score : Q;
  llm_evaluation_score : option Q
}.

(** [array[i]] for an integer [i]: [undefined] ([None]) outside
    [0 .. length - 1]. *)
Definition js_index {A : Type} (l : list A) (i : Z) : option A :=
  if (i <? 0)%Z then None else nth_error l (Z.to_nat i).

(** [a || b] on an optional string: [undefined] and [""] are falsy. *)
Definition or_default (x : option string) (dflt : string) : string :=
  match x with
  | Some t => if String.eqb t "" then dflt else t
  | None => dflt
  end.

End Types.

(* ========================================================================== *)
(** * AnalysisPanel: citation rendering                                        *)
(* ========================================================================== *)

Module AnalysisPanel.
Import Types.
Open Scope Z_scope.

Definition lbracket : ascii := "["%char.
Definition rbracket : ascii := "]"%char.

(** [\d]: an ASCII decimal digit. *)
Definition is_digit (c : ascii) : bool :=
  (48 <=? nat_of_ascii c)%nat && (nat_of_ascii c <=? 57)%nat.

(** Longest prefix of digits, and what follows it. *)
Fixpoint span_digits (l : list ascii) : list ascii * list ascii :=
  match l with
  | c :: t =>
      if is_digit c then let (ds, r) := span_digits t in (c :: ds, r)
      else ([], l)
  | [] => ([], [])
  end.

(** Does [/\[(\d+)\]/] match at the start of [l]? Returns the digits of
    group 1 and the text after the match. [\d+] is greedy and what follows
    it must be [']'], which is not a digit, so backtracking never finds
    another match. *)
Definition match_at (l : list ascii) : option (list ascii * list ascii) :=
  match l with
  | c :: t =>
      if Ascii.eqb c lbracket then
        match span_digits t with
        | ((_ :: _) as ds, c' :: r) => if Ascii.eqb c' rbracket then Some (ds, r) else None
        | _ => None
        end
      else None
  | [] => None
  end.

(** [citationRegex.exec]: the leftmost match in [l], as the text before
    it, the digits of group 1 and the text after it. *)
Fixpoint exec (l : list ascii) : option (list ascii * list ascii * list ascii) :=
  match match_at l with
  | Some (ds, r) => Some ([], ds, r)
  | None =>
      match l with
      | c :: t =>
          match exec t with
          | Some (b, ds, r) => Some (c :: b, ds, r)
          | None => None
          end
      | [] => None
      end
  end.

(** [parseInt(match[1])] on a string of decimal digits. *)
Fixpoint parse_digits (acc : Z) (ds : list ascii) : Z :=
  match ds with
  | d :: t => parse_digits (acc * 10 + Z.of_nat (nat_of_ascii d - 48)) t
  | [] => acc
  end.

Definition parseInt (ds : list ascii) : Z := parse_digits 0 ds.

(** An entry of [parts]: a substring of the node, or a
    [<CitationComponent key=... citationNumber chunk/>] element. [match0]
    is [match[0]], the text of the node the element stands in for. *)
Inductive Part :=
| PText (s : list ascii)
| PCitation (matchIndex : nat) (match0 : list ascii)
            (citationNumber : Z) (chunk : option Chunk).

(** The [while ((match = citationRegex.exec(node)) !== null)] loop, on the
    suffix [rest] of the node that starts at [lastIndex]. The loop runs at
    most once per character; [fuel] counts the rounds left. *)
Fixpoint citation_loop (fuel : nat) (chunks : list Chunk) (lastIndex : nat)
    (rest : list ascii) : list Part :=
  match fuel with
  | O => []
  | S fuel' =>
      match exec rest with
      | None =>
          (* Add remaining text *)
          if (0 <? List.length rest)%nat then [PText rest] else []
      | Some (before, ds, after) =>
          let index := (lastIndex + List.length before)%nat in
          let match0 := lbracket :: ds ++ [rbracket] in
          let citationNumber := parseInt ds in
          let chunk := js_index chunks (citationNumber - 1) in
          (* Add text before citation *)
          (if (0 <? List.length before)%nat then [PText before] else [])
          ++ PCitation index match0 citationNumber chunk
          :: citation_loop fuel' chunks (index + List.length match0) after
      end
  end.

(** What [processText] returns for a string node. *)
Inductive ProcessResult :=
| RParts (parts : list Part)
| RNode (node : list ascii).

Definition processText (chunks : list Chunk) (node : list ascii) : ProcessResult :=
  match citation_loop (S (List.length node)) chunks 0 node with
  | [] => RNode node
  | parts => RParts parts
  end.

Definition parts_of (r : ProcessResult) : list Part :=
  match r with
  | RParts ps => ps
  | RNode _ => []
  end.

(** The node text each entry covers: a text part itself, a citation the
    [match[0]] it replaces. *)
Definition part_source (p : Part) : list ascii :=
  match p with
  | PText s => s
  | PCitation _ m _ _ => m
  end.

Definition source_of (r : ProcessResult) : list ascii :=
  match r with
  | RParts ps => concat (map part_source ps)
  | RNode n => n
  end.

(** What [CitationComponent] renders: [<span>[{citationNumber}]</span>], or
    a [Chip] labelled with the number under a tooltip, whose click selects
    the chunk. *)
Inductive Rendered :=
| RSpan (citationNumber : Z)
| RChip (label : Z) (tooltipText : string) (onClickChunk : Chunk).

Definition CitationComponent (citationNumber : Z) (chunk : option Chunk) : Rendered :=
  match chunk with
  | None => RSpan citationNumber
  | Some c =>
      let title := or_default (Artikeltitel (metadata c)) "Unbekannter Titel" in
      let date := or_default (Datum (metadata c)) "N/A" in
      RChip citationNumber (title ++ " (" ++ date ++ ")")%string c
  end.

(** The citation numbers of the elements [processText] emits, in order. *)
Definition citation_numbers (r : ProcessResult) : list Z :=
  flat_map (fun p => match p with
                     | PCitation _ _ n _ => [n]
                     | PText _ => []
                     end) (parts_of r).

End AnalysisPanel.

(* ========================================================================== *)
(** * useAppStore: [performSearch]                                             *)
(* ========================================================================== *)

Module AppStore.
Import Types.
Open Scope Z_scope.

(** [SearchResults]: the chunks and the fields of [metadata] it declares. *)
Record SearchResults := mkSearchResults {
  chunks : list Chunk;
  search_time : Q;
  total_chunks_found : Z
}.

Record AnalysisResult := mkAnalysisResult {
  answer : string;
  model_used : string
}.

(** The state fields of [AppState] (the form state is not touched by
    [performSearch] and is left out). *)
Record AppState := mkAppState {
  activeTab : Z;
  isSearching : bool;
  searchError : option string;
  searchResults : option SearchResults;
  selectedChunkIds : list Z;
  isAnalyzing : bool;
  analysisError : option string;
  transferredChunks : list Chunk;
  analysisResult : option AnalysisResult
}.

(** The value caught by [catch (err: unknown)], as far as the handler looks
    at it: an object with a [response] key ([response?.data?.error] as
    nested optionals), an [Error] instance, or anything else. *)
Inductive CaughtError :=
| ErrWithResponse (response : option (option (option string)))
| ErrInstance (message : string)
| ErrOther.

(** How the awaited [apiService.post] settles. *)
Inductive ApiOutcome :=
| ApiOk (data : SearchResults)
| ApiErr (err : CaughtError).

Definition endpoint (searchType : string) : string :=
  if String.eqb searchType "standard" then "/api/search/standard"
  else "/api/search/llm-assisted".

(** [{ ...chunk, id: index + 1 }] over [response.data.chunks.map]. *)
Definition set_id (c : Chunk) (i : Z) : Chunk :=
  mkChunk i (content c) (metadata c) (relevance_score c) (llm_evaluation_score c).

Fixpoint with_ids_from (index : nat) (cs : list Chunk) : list Chunk :=
  match cs with
  | c :: t => set_id c (Z.of_nat index + 1) :: with_ids_from (S index) t
  | [] => []
  end.

Definition chunksWithIds (cs : list Chunk) : list Chunk := with_ids_from 0 cs.

Definition default_error : string := "An unexpected error occurred.".

(** The [errorMessage] computed in the [catch] block. *)
Definition errorMessage_of (err : CaughtError) : string :=
  match err with
  | ErrWithResponse (Some (Some e)) => or_default e default_error
  | ErrWithResponse _ => default_error
  | ErrInstance msg => msg
  | ErrOther => default_error
  end.

(** [set({ isSearching: true, searchError: null, searchResults: null,
    analysisResult: null, transferredChunks: [] })]. *)
Definition search_start (st : AppState) : AppState :=
  mkAppState (activeTab st) true None None (selectedChunkIds st)
    (isAnalyzing st) (analysisError st) [] None.

(** The [set] after the awaited call: the success branch or the [catch]. *)
Definition search_finish (outcome : ApiOutcome) (st : AppState) : AppState :=
  match outcome with
  | ApiOk data =>
      let chunksWithIds := chunksWithIds (chunks data) in
      let resultsWithIds :=
        mkSearchResults chunksWithIds (search_time data) (total_chunks_found data) in
      mkAppState (activeTab st) false (searchError st) (Some resultsWithIds)
        (map id chunksWithIds)
        (isAnalyzing st) (analysisError st) (transferredChunks st) (analysisResult st)
  | ApiErr err =>
      mkAppState (activeTab st) false (Some (errorMessage_of err)) (searchResults st)
        (selectedChunkIds st)
        (isAnalyzing st) (analysisError st) (transferredChunks st) (analysisResult st)
  end.

(** [performSearch]: the awaited post to [endpoint searchType] settles as
    [api (endpoint searchType)]; no other action runs in between. *)
Definition performSearch (api : string -> ApiOutcome) (searchType : string)
    (st : AppState) : AppState :=
  search_finish (api (endpoint searchType)) (search_start st).

End AppStore.

(* ========================================================================== *)
(** * ScoreVisualization: [calculateStats] and [ViolinPlot]                    *)
(* ========================================================================== *)

Module ScoreVisualization.
Import Types.
Open Scope Q_scope.

(** [[...scores].sort((a, b) => a - b)]: [Array.prototype.sort] is stable,
    so with this comparator the result is the stable ascending sort, here an
    insertion sort that puts each element after the equal ones before it. *)
Fixpoint insert_sorted (x : Q) (l : list Q) : list Q :=
  match l with
  | y :: t => if Qle_bool y x then y :: insert_sorted x t else x :: l
  | [] => [x]
  end.

Definition sort_numbers (scores : list Q) : list Q :=
  fold_left (fun acc x => insert_sorted x acc) scores [].

(** The object [{ min, max, mean, q1, median, q3 }]; an array read outside
    the array would be [undefined] ([None]). *)
Record Stats := mkStats {
  min : option Q;
  max : option Q;
  mean : Q;
  q1 : option Q;
  median : option Q;
  q3 : option Q
}.

Definition calculateStats (scores : list Q) : option Stats :=
  match scores with
  | [] => None
  | _ =>
      let sorted := sort_numbers scores in
      let len := inject_Z (Z.of_nat (List.length sorted)) in
      let min := js_index sorted 0 in
      let max := js_index sorted (Z.of_nat (List.length sorted) - 1) in
      let mean := fold_left Qplus scores 0 / inject_Z (Z.of_nat (List.length scores)) in
      let q1Index := Qfloor (len * (25 # 100)) in
      let medianIndex := Qfloor (len * (5 # 10)) in
      let q3Index := Qfloor (len * (75 # 100)) in
      Some (mkStats min max mean
              (js_index sorted q1Index)
              (js_index sorted medianIndex)
              (js_index sorted q3Index))
  end.

Definition bins : Z := 10.

(** [Math.min(Math.floor(score * bins), bins - 1)] (the ViolinPlot of the
    fixed [0, 1] axis). *)
Definition binIndex_fixed (score : Q) : Z :=
  Z.min (Qfloor (score * inject_Z bins)) (bins - 1).

(** [yMin] and [yRange] of the dynamic axis, from [stats.min], [stats.max]. *)
Definition y_axis (statsMin statsMax : Q) : Q * Q :=
  let scoreRange := statsMax - statsMin in
  let padding := Qmax (5 # 100) (scoreRange * (2 # 10)) in
  let yMin := Qmax 0 (statsMin - padding) in
  let yMax := Qmin 1 (statsMax + padding) in
  (yMin, yMax - yMin).

(** [Math.min(Math.floor(normalizedScore * bins), bins - 1)] with
    [normalizedScore = (score - yMin) / yRange] (the ViolinPlot of the
    dynamic axis). *)
Definition binIndex_scaled (yMin yRange score : Q) : Z :=
  let normalizedScore := (score - yMin) / yRange in
  Z.min (Qfloor (normalizedScore * inject_Z bins)) (bins - 1).

End ScoreVisualization.

(* ========================================================================== *)
(** * SearchPanel: [llmTimeIntervalCalculation]                                *)
(* ========================================================================== *)

Module SearchPanelLlm.
Import SearchPanel.
Open Scope Z_scope.

(** The fields of [SearchFormState] the LLM-assisted preview reads. *)
Record LlmSearchFormState := mkLlmSearchFormState {
  llm_assisted_use_time_intervals : bool;
  year_start : Z;
  year_end : Z;
  llm_assisted_time_interval_size : Z
}.

(** [llmTimeIntervalCalculation]; [None] when the loop runs out of [fuel]. *)
Definition llmTimeIntervalCalculation (fuel : nat) (formState : LlmSearchFormState)
  : option CalcResult :=
  if negb (llm_assisted_use_time_intervals formState) then Some CalcNull
  else
    let year_start := year_start formState in
    let year_end := year_end formState in
    let llm_assisted_time_interval_size := llm_assisted_time_interval_size formState in
    if year_end <? year_start then Some (CalcMessage start_before_end_msg)
    else
      let span := year_end - year_start + 1 in
      let num_intervals := num_intervals_of span llm_assisted_time_interval_size in
      match interval_loop fuel year_start year_end llm_assisted_time_interval_size with
      | Some intervals => Some (CalcIntervals span num_intervals intervals)
      | None => None
      end.

End SearchPanelLlm.

(* ========================================================================== *)
(** * useAppStore: selection, transfer and analysis actions; ResultsDisplay    *)
(* ========================================================================== *)

Module AppStoreActions.
Import Types AppStore.
Open Scope Z_scope.

(** [array.includes(x)] on numbers. *)
Definition includes (l : list Z) (x : Z) : bool := existsb (Z.eqb x) l.

Definition set_selectedChunkIds (sel : list Z) (st : AppState) : AppState :=
  mkAppState (activeTab st) (isSearching st) (searchError st) (searchResults st)
    sel (isAnalyzing st) (analysisError st) (transferredChunks st) (analysisResult st).

(** [toggleChunkSelection]: drop every occurrence of a selected id, append
    an unselected one. *)
Definition toggleChunkSelection (chunkId : Z) (st : AppState) : AppState :=
  let selectedChunkIds :=
    if includes (selectedChunkIds st) chunkId
    then filter (fun i => negb (i =? chunkId)) (selectedChunkIds st)
    else selectedChunkIds st ++ [chunkId] in
  set_selectedChunkIds selectedChunkIds st.

(** [selectAllChunks]: [return {}] (no change) without results. *)
Definition selectAllChunks (st : AppState) : AppState :=
  match searchResults st with
  | None => st
  | Some r => set_selectedChunkIds (map id (chunks r)) st
  end.

Definition deselectAllChunks (st : AppState) : AppState :=
  set_selectedChunkIds [] st.

(** [transferChunksForAnalysis]: no change without results or with an empty
    selection; otherwise the selected chunks in result order, the analysis
    result cleared and the Analyse tab (1) opened. *)
Definition transferChunksForAnalysis (st : AppState) : AppState :=
  match searchResults st with
  | None => st
  | Some r =>
      if (List.length (selectedChunkIds st) =? 0)%nat then st
      else
        let chunksToTransfer :=
          filter (fun c => includes (selectedChunkIds st) (id c)) (chunks r) in
        mkAppState 1 (isSearching st) (searchError st) (searchResults st)
          (selectedChunkIds st) (isAnalyzing st) (analysisError st)
          chunksToTransfer None
  end.

(** [rest] in [({ id: _id, ...rest }: Chunk) => rest]. *)
Record ChunkPayload := mkChunkPayload {
  rest_content : string;
  rest_metadata : ChunkMetadata;
  rest_relevance_score : Q;
  rest_llm_evaluation_score : option Q
}.

Definition strip_id (c : Chunk) : ChunkPayload :=
  mkChunkPayload (content c) (metadata c) (relevance_score c) (llm_evaluation_score c).

(** How the awaited post to [/api/search/analyze] settles. *)
Inductive AnalysisOutcome :=
| AnalysisOk (data : AnalysisResult)
| AnalysisErr (err : CaughtError).

Definition no_chunks_msg : string := "Keine Texte zur Analyse übertragen.".

(** [performAnalysis]: the final state, and the [chunks_to_analyze] of the
    request it posts ([None]: no request). The other request parameters are
    passed through unchanged and are left out. *)
Definition performAnalysis (api : list ChunkPayload -> AnalysisOutcome)
    (st : AppState) : AppState * option (list ChunkPayload) :=
  match transferredChunks st with
  | [] =>
      (mkAppState (activeTab st) (isSearching st) (searchError st) (searchResults st)
         (selectedChunkIds st) (isAnalyzing st) (Some no_chunks_msg)
         (transferredChunks st) (analysisResult st), None)
  | chunksToAnalyze =>
      let payload := map strip_id chunksToAnalyze in
      (* set({ isAnalyzing: true, analysisError: null, analysisResult: null }) *)
      let st1 := mkAppState (activeTab st) (isSearching st) (searchError st)
                   (searchResults st) (selectedChunkIds st) true None
                   (transferredChunks st) None in
      match api payload with
      | AnalysisOk data =>
          (mkAppState (activeTab st1) (isSearching st1) (searchError st1)
             (searchResults st1) (selectedChunkIds st1) false (analysisError st1)
             (transferredChunks st1) (Some data), Some payload)
      | AnalysisErr err =>
          (mkAppState (activeTab st1) (isSearching st1) (searchError st1)
             (searchResults st1) (selectedChunkIds st1) false
             (Some (errorMessage_of err)) (transferredChunks st1)
             (analysisResult st1), Some payload)
      end
  end.

(** [if (searchError)]: a non-empty message is truthy. *)
Definition error_shown (st : AppState) : bool :=
  match searchError st with
  | Some e => negb (String.eqb e "")
  | None => false
  end.

(** ResultsDisplay: the select-all button exists only once results are shown
    (not searching, no error shown, results present); its click calls
    [deselectAllChunks] when [allSelected || someSelected], else
    [selectAllChunks]. [None]: the button is not rendered. *)
Definition headerClick (st : AppState) : option AppState :=
  if isSearching st || error_shown st then None
  else
    match searchResults st with
    | None => None
    | Some r =>
        let n := List.length (selectedChunkIds st) in
        let allSelected := (0 <? n)%nat && (n =? List.length (chunks r))%nat in
        let someSelected := (0 <? n)%nat && negb allSelected in
        Some (if allSelected || someSelected then deselectAllChunks st
              else selectAllChunks st)
    end.

(** The store's initial state. *)
Definition initialState : AppState :=
  mkAppState 0 false None None [] false None [] None.

Definition setActiveTab (tabIndex : Z) (st : AppState) : AppState :=
  mkAppState tabIndex (isSearching st) (searchError st) (searchResults st)
    (selectedChunkIds st) (isAnalyzing st) (analysisError st) (transferredChunks st)
    (analysisResult st).

(** The store's actions, each run to completion (an awaited call settles
    before the next action starts). *)
Inductive Action :=
| ASetActiveTab (tabIndex : Z)
| APerformSearch (api : string -> ApiOutcome) (searchType : string)
| AToggleChunkSelection (chunkId : Z)
| ASelectAllChunks
| ADeselectAllChunks
| ATransferChunksForAnalysis
| APerformAnalysis (api : list ChunkPayload -> AnalysisOutcome).

Definition step (a : Action) (st : AppState) : AppState :=
  match a with
  | ASetActiveTab t => setActiveTab t st
  | APerformSearch api searchType => performSearch api searchType st
  | AToggleChunkSelection k => toggleChunkSelection k st
  | ASelectAllChunks => selectAllChunks st
  | ADeselectAllChunks => deselectAllChunks st
  | ATransferChunksForAnalysis => transferChunksForAnalysis st
  | APerformAnalysis api => fst (performAnalysis api st)
  end.

Definition run (acts : list Action) (st : AppState) : AppState :=
  fold_left (fun s a => step a s) acts st.

End AppStoreActions.

(* ========================================================================== *)
(** * ScoreVisualization: the [binCounts] histogram                            *)
(* ========================================================================== *)

Module ScoreVisualizationBins.
Import ScoreVisualization.
Open Scope Z_scope.

(** [binCounts[i]++] on an array of numbers: an index outside the array
    writes a non-index property and leaves the elements as they are. *)
Fixpoint incr_nth (l : list Z) (i : nat) : list Z :=
  match l, i with
  | x :: t, O => (x + 1) :: t
  | x :: t, S i' => x :: incr_nth t i'
  | [], _ => []
  end.

Definition array_incr (l : list Z) (i : Z) : list Z :=
  if (0 <=? i) && (i <? Z.of_nat (List.length l)) then incr_nth l (Z.to_nat i) else l.

(** [new Array(bins).fill(0)]. *)
Definition empty_bins : list Z := repeat 0 (Z.to_nat bins).

(** The [scores.forEach] of the dynamic-axis ViolinPlot, with its guard
    [binIndex >= 0 && binIndex < bins]. *)
Definition binCounts_scaled (yMin yRange : Q) (scores : list Q) : list Z :=
  fold_left (fun binCounts score =>
               let binIndex := binIndex_scaled yMin yRange score in
               if (0 <=? binIndex) && (binIndex <? bins)
               then array_incr binCounts binIndex else binCounts)
            scores empty_bins.


Definition sum_list (l : list Z) : Z := fold_right Z.add 0 l.

(** [Math.max(...binCounts)]; [None] stands for the [-Infinity] of an
    empty array. *)
Definition math_max (l : list Z) : option Z :=
  match l with
  | [] => None
  | x :: t => Some (fold_left Z.max t x)
  end.

End ScoreVisualizationBins.

(* ========================================================================== *)
(** * Lemmas on the interval loop                                              *)
(* ========================================================================== *)

Module SearchPanelFacts.
Import SearchPanel.
Open Scope Z_scope.

Lemma interval_loop_chain (fuel : nat) (cs ye size : Z) (ws : list (Z * Z)) :
  1 <= size -> interval_loop fuel cs ye size = Some ws -> chain cs ye ws.
Proof.
  revert cs ws; induction fuel as [|fuel IH]; intros cs ws Hsize Hloop;
    simpl in Hloop; [discriminate|].
  destruct (cs <=? ye) eqn:Hle.
  - destruct (interval_loop fuel (Z.min (cs + size - 1) ye + 1) ye size)
      as [rest|] eqn:Hrest; simpl in Hloop; [|discriminate].
    injection Hloop as <-. simpl.
    apply Z.leb_le in Hle.
    split; [reflexivity|]. split; [lia|].
    apply IH; assumption.
  - injection Hloop as <-. simpl. apply Z.leb_gt in Hle. exact Hle.
Qed.

Lemma interval_loop_terminates (fuel : nat) (cs ye size : Z) :
  1 <= size -> (loop_fuel cs ye <= fuel)%nat ->
  exists ws, interval_loop fuel cs ye size = Some ws.
Proof.
  unfold loop_fuel.
  revert cs; induction fuel as [|fuel IH]; intros cs Hsize Hfuel; [lia|].
  simpl. destruct (cs <=? ye) eqn:Hle.
  - apply Z.leb_le in Hle.
    destruct (IH (Z.min (cs + size - 1) ye + 1)) as [rest Hrest];
      [assumption|lia|].
    rewrite Hrest. simpl. eauto.
  - eauto.
Qed.

Lemma chain_contiguous (cs ye : Z) (ws : list (Z * Z)) :
  chain cs ye ws -> contiguous ws.
Proof.
  revert cs; induction ws as [|[s e] rest IH]; intros cs Hc; simpl; [trivial|].
  destruct Hc as (_ & _ & Hrest).
  destruct rest as [|[s' e'] rest']; [trivial|].
  split.
  - destruct Hrest as (-> & _). reflexivity.
  - apply (IH (e + 1)). exact Hrest.
Qed.

Lemma chain_windows_containing (cs ye : Z) (ws : list (Z * Z)) (y : Z) :
  chain cs ye ws ->
  windows_containing ws y = if (cs <=? y) && (y <=? ye) then 1%nat else 0%nat.
Proof.
  unfold windows_containing.
  revert cs; induction ws as [|[s e] rest IH]; intros cs Hc.
  - simpl in Hc. simpl.
    destruct (cs <=? y) eqn:H1; destruct (y <=? ye) eqn:H2; simpl; try reflexivity.
    apply Z.leb_le in H1; apply Z.leb_le in H2; lia.
  - destruct Hc as (-> & Hb & Hrest).
    specialize (IH (e + 1) Hrest).
    cbn [filter].
    destruct ((cs <=? y) && (y <=? e)) eqn:Hw; cbn [List.length]; rewrite IH;
    destruct (cs <=? y) eqn:H1; destruct (y <=? e) eqn:H2;
      destruct (e + 1 <=? y) eqn:H3; destruct (y <=? ye) eqn:H4; simpl in *;
      try reflexivity; try discriminate;
      repeat match goal with
             | H : (_ <=? _) = true |- _ => apply Z.leb_le in H
             | H : (_ <=? _) = false |- _ => apply Z.leb_gt in H
             end; lia.
Qed.

Lemma interval_loop_window_size (fuel : nat) (cs ye size : Z) (ws : list (Z * Z)) :
  interval_loop fuel cs ye size = Some ws ->
  forall s e, In (s, e) ws -> e <= s + size - 1.
Proof.
  revert cs ws; induction fuel as [|fuel IH]; intros cs ws Hloop s e Hin;
    simpl in Hloop; [discriminate|].
  destruct (cs <=? ye) eqn:Hle.
  - destruct (interval_loop fuel (Z.min (cs + size - 1) ye + 1) ye size)
      as [rest|] eqn:Hrest; simpl in Hloop; [|discriminate].
    injection Hloop as <-.
    destruct Hin as [Heq|Hin].
    + injection Heq as <- <-. lia.
    + exact (IH _ _ Hrest s e Hin).
  - injection Hloop as <-. destruct Hin.
Qed.

Lemma interval_loop_length (fuel : nat) (cs ye size : Z) (ws : list (Z * Z)) :
  1 <= size -> cs <= ye + 1 -> interval_loop fuel cs ye size = Some ws ->
  Z.of_nat (List.length ws) = (ye - cs + size) / size.
Proof.
  revert cs ws; induction fuel as [|fuel IH]; intros cs ws Hsize Hcs Hloop;
    simpl in Hloop; [discriminate|].
  destruct (cs <=? ye) eqn:Hle.
  - apply Z.leb_le in Hle.
    destruct (interval_loop fuel (Z.min (cs + size - 1) ye + 1) ye size)
      as [rest|] eqn:Hrest; simpl in Hloop; [|discriminate].
    injection Hloop as <-.
    cbn [List.length]. rewrite Nat2Z.inj_succ.
    destruct (Z.le_ge_cases (cs + size - 1) ye) as [Hlt|Hge].
    + rewrite Z.min_l in Hrest by exact Hlt.
      rewrite (IH (cs + size - 1 + 1) rest Hsize ltac:(lia) Hrest).
      replace (ye - cs + size) with ((ye - (cs + size - 1 + 1) + size) + 1 * size)
        by ring.
      rewrite Z.div_add by lia. lia.
    + rewrite Z.min_r in Hrest by lia.
      rewrite (IH (ye + 1) rest Hsize ltac:(lia) Hrest).
      replace (ye - (ye + 1) + size) with (size - 1) by ring.
      rewrite (Z.div_small (size - 1) size) by lia.
      change (Z.succ 0) with 1. apply Z.div_unique with (r := ye - cs); lia.
  - injection Hloop as <-. apply Z.leb_gt in Hle.
    replace (ye - cs + size) with (size - 1) by lia.
    rewrite Z.div_small by lia. reflexivity.
Qed.

(** [Math.ceil(a / b)] for integers is [(a + b - 1) / b]. *)
Lemma num_intervals_of_div (span size : Z) :
  1 <= size -> num_intervals_of span size = (span + size - 1) / size.
Proof.
  intros Hsize. destruct size as [|p|p]; try lia.
  unfold num_intervals_of, Qceiling, Qfloor, Qdiv, Qmult, Qinv, Qopp, inject_Z.
  cbn. rewrite Z.mul_1_r.
  pose proof (Z.div_mod (- span) (Z.pos p) ltac:(lia)) as H1.
  pose proof (Z.mod_pos_bound (- span) (Z.pos p) ltac:(lia)) as H2.
  pose proof (Z.div_mod (span + Z.pos p - 1) (Z.pos p) ltac:(lia)) as H3.
  pose proof (Z.mod_pos_bound (span + Z.pos p - 1) (Z.pos p) ltac:(lia)) as H4.
  set (q := - span / Z.pos p) in *.
  set (c := (span + Z.pos p - 1) / Z.pos p) in *.
  assert (Z.pos p * (- q - c) = (- span) mod Z.pos p
            + (span + Z.pos p - 1) mod Z.pos p + 1 - Z.pos p) as Hk by lia.
  assert (- q - c = 0) as H0.
  { destruct (Z.lt_trichotomy (- q - c) 0) as [Hn|[Hz|Hp]]; [|exact Hz|]; nia. }
  lia.
Qed.

Lemma chain_head (cs ye : Z) (ws : list (Z * Z)) :
  cs <= ye -> chain cs ye ws -> fst (hd (0, 0) ws) = cs.
Proof.
  intros Hle Hc. destruct ws as [|[s e] rest]; simpl in *; [lia|].
  destruct Hc as (-> & _). reflexivity.
Qed.

Lemma chain_last (cs ye : Z) (ws : list (Z * Z)) :
  cs <= ye -> chain cs ye ws -> snd (last ws (0, 0)) = ye.
Proof.
  revert cs; induction ws as [|[s e] rest IH]; intros cs Hle Hc; simpl in *; [lia|].
  destruct Hc as (-> & Hb & Hrest).
  destruct rest as [|w rest'].
  - simpl in Hrest. simpl. lia.
  - change (snd (last (w :: rest') (0, 0)) = ye).
    apply (IH (e + 1)); [|exact Hrest].
    destruct w as [s' e']. simpl in Hrest. lia.
Qed.

Lemma chain_in (cs ye : Z) (ws : list (Z * Z)) :
  chain cs ye ws -> forall s e, In (s, e) ws -> cs <= s <= e /\ e <= ye.
Proof.
  revert cs; induction ws as [|[s0 e0] rest IH]; intros cs Hc s e Hin;
    [destruct Hin|].
  destruct Hc as (-> & Hb & Hrest).
  destruct Hin as [Heq|Hin].
  - injection Heq as <- <-. lia.
  - specialize (IH (e0 + 1) Hrest s e Hin). lia.
Qed.

(** With a size of at most 0 each round ends the window before it starts
    and starts the next round no later than it began: the loop never
    finishes. *)
Lemma interval_loop_size_nonpositive (fuel : nat) (cs ye size : Z) :
  size < 1 -> cs <= ye -> interval_loop fuel cs ye size = None.
Proof.
  intros Hsize; revert cs; induction fuel as [|fuel IH]; intros cs Hle;
    simpl; [reflexivity|].
  replace (cs <=? ye) with true by (symmetry; apply Z.leb_le; exact Hle).
  rewrite Z.min_l by lia.
  rewrite IH by lia. reflexivity.
Qed.

(** ** Claim C1 *)

(** C1: for [year_start <= year_end] and [time_interval_size >= 1] the loop
    of [timeIntervalCalculation] finishes and its windows are contiguous
    ([end + 1] is the next start), each non-empty and at most
    [time_interval_size] years long, every year of [[year_start, year_end]]
    lies in exactly one window and no other year in any; the first window
    starts at [year_start], the last ends at [year_end]; and
    [(1960, 1975, 5)] gives 1960-1964, 1965-1969, 1970-1974, 1975-1975. *)
Theorem timeIntervalCalculation_partitions (fuel : nat) (ys ye size : Z) :
  ys <= ye -> 1 <= size -> (loop_fuel ys ye <= fuel)%nat ->
  (exists ws,
     timeIntervalCalculation fuel (mkForm ys ye size)
       = Some (CalcIntervals (ye - ys + 1) (num_intervals_of (ye - ys + 1) size) ws)
     /\ contiguous ws
     /\ (forall s e, In (s, e) ws -> s <= e <= ye /\ e <= s + size - 1)
     /\ (forall y, windows_containing ws y
                   = if (ys <=? y) && (y <=? ye) then 1%nat else 0%nat)
     /\ fst (hd (0, 0) ws) = ys
     /\ snd (last ws (0, 0)) = ye)
  /\ timeIntervalCalculation 100 (mkForm 1960 1975 5)
       = Some (CalcIntervals 16 4
                 [(1960, 1964); (1965, 1969); (1970, 1974); (1975, 1975)]).
Proof.
  intros Hle Hsize Hfuel. split; [|reflexivity].
  destruct (interval_loop_terminates fuel ys ye size Hsize Hfuel) as [ws Hws].
  pose proof (interval_loop_chain fuel ys ye size ws Hsize Hws) as Hc.
  exists ws. split; [|split; [|split; [|split; [|split]]]].
  - unfold timeIntervalCalculation. simpl.
    replace (ye <? ys) with false by (symmetry; apply Z.ltb_ge; exact Hle).
    rewrite Hws. reflexivity.
  - exact (chain_contiguous ys ye ws Hc).
  - intros s e Hin.
    pose proof (chain_in ys ye ws Hc s e Hin).
    pose proof (interval_loop_window_size fuel ys ye size ws Hws s e Hin). lia.
  - intros y. exact (chain_windows_containing ys ye ws y Hc).
  - exact (chain_head ys ye ws Hle Hc).
  - exact (chain_last ys ye ws Hle Hc).
Qed.

Lemma timeIntervalCalculation_partitions_witness :
  (1960 <= 1975 /\ 1 <= 5 /\ (loop_fuel 1960 1975 <= 100)%nat) /\
  ((exists ws,
     timeIntervalCalculation 100 (mkForm 1960 1975 5)
       = Some (CalcIntervals (1975 - 1960 + 1)
                 (num_intervals_of (1975 - 1960 + 1) 5) ws)
     /\ contiguous ws
     /\ (forall s e, In (s, e) ws -> s <= e <= 1975 /\ e <= s + 5 - 1)
     /\ (forall y, windows_containing ws y
                   = if (1960 <=? y) && (y <=? 1975) then 1%nat else 0%nat)
     /\ fst (hd (0, 0) ws) = 1960
     /\ snd (last ws (0, 0)) = 1975)
  /\ timeIntervalCalculation 100 (mkForm 1960 1975 5)
       = Some (CalcIntervals 16 4
                 [(1960, 1964); (1965, 1969); (1970, 1974); (1975, 1975)])).
Proof.
  split; [split; [lia|split; [lia|vm_compute; lia]]|].
  apply (timeIntervalCalculation_partitions 100 1960 1975 5);
    [lia|lia|vm_compute; lia].
Defined.

(** ** Claim C7 *)

(** C7, as stated, fails: with interval size 0 no number of loop rounds
    produces the invalid-range message; the loop never finishes. *)
Lemma timeIntervalCalculation_size_zero_no_message :
  ~ (exists fuel, timeIntervalCalculation fuel (mkForm 1960 1975 0)
                  = Some (CalcMessage start_before_end_msg)).
Proof.
  intros [fuel Hf].
  unfold timeIntervalCalculation in Hf. simpl in Hf.
  rewrite interval_loop_size_nonpositive in Hf by lia. discriminate.
Qed.

(** C7 (amended): when [year_start > year_end] the calculation returns the
    message "Startjahr muss vor Endjahr liegen." and no window list, whatever
    the interval size; the size itself is not checked, and for
    [year_start <= year_end] with a size below 1 the loop never finishes
    (no number of rounds gives a result). *)
Theorem timeIntervalCalculation_rejects_reversed_range
    (fuel : nat) (ys ye size : Z) :
  (ye < ys ->
   timeIntervalCalculation fuel (mkForm ys ye size)
     = Some (CalcMessage start_before_end_msg))
  /\ (ys <= ye -> size < 1 ->
      timeIntervalCalculation fuel (mkForm ys ye size) = None).
Proof.
  split.
  - intros Hlt. unfold timeIntervalCalculation. simpl.
    replace (ye <? ys) with true by (symmetry; apply Z.ltb_lt; exact Hlt).
    reflexivity.
  - intros Hle Hsize. unfold timeIntervalCalculation. simpl.
    replace (ye <? ys) with false by (symmetry; apply Z.ltb_ge; exact Hle).
    rewrite interval_loop_size_nonpositive by assumption. reflexivity.
Qed.

Lemma timeIntervalCalculation_rejects_reversed_range_witness :
  (1960 < 1975 /\
   timeIntervalCalculation 0 (mkForm 1975 1960 5)
     = Some (CalcMessage start_before_end_msg))
  /\ (1960 <= 1975 /\ 0 < 1 /\
      timeIntervalCalculation 50 (mkForm 1960 1975 0) = None).
Proof.
  split.
  - split; [lia|].
    apply (proj1 (timeIntervalCalculation_rejects_reversed_range 0 1975 1960 5)).
    lia.
  - split; [lia|split; [lia|]].
    apply (proj2 (timeIntervalCalculation_rejects_reversed_range 50 1960 1975 0));
      lia.
Defined.

(** ** Claim C8 *)

(** C8: for [year_start <= year_end] and [time_interval_size >= 1] the
    number announced in the summary, [Math.ceil(span / time_interval_size)],
    equals the number of intervals the loop generates. *)
Theorem num_intervals_matches_loop (fuel : nat) (ys ye size : Z) :
  ys <= ye -> 1 <= size -> (loop_fuel ys ye <= fuel)%nat ->
  exists ws,
    timeIntervalCalculation fuel (mkForm ys ye size)
      = Some (CalcIntervals (ye - ys + 1) (num_intervals_of (ye - ys + 1) size) ws)
    /\ num_intervals_of (ye - ys + 1) size = Z.of_nat (List.length ws).
Proof.
  intros Hle Hsize Hfuel.
  destruct (interval_loop_terminates fuel ys ye size Hsize Hfuel) as [ws Hws].
  exists ws. split.
  - unfold timeIntervalCalculation. simpl.
    replace (ye <? ys) with false by (symmetry; apply Z.ltb_ge; exact Hle).
    rewrite Hws. reflexivity.
  - rewrite num_intervals_of_div by exact Hsize.
    rewrite (interval_loop_length fuel ys ye size ws Hsize ltac:(lia) Hws).
    f_equal. ring.
Qed.

Lemma num_intervals_matches_loop_witness :
  (1960 <= 1975 /\ 1 <= 5 /\ (loop_fuel 1960 1975 <= 100)%nat) /\
  exists ws,
    timeIntervalCalculation 100 (mkForm 1960 1975 5)
      = Some (CalcIntervals (1975 - 1960 + 1)
                (num_intervals_of (1975 - 1960 + 1) 5) ws)
    /\ num_intervals_of (1975 - 1960 + 1) 5 = Z.of_nat (List.length ws).
Proof.
  split; [split; [lia|split; [lia|vm_compute; lia]]|].
  apply (num_intervals_matches_loop 100 1960 1975 5);
    [lia|lia|vm_compute; lia].
Defined.

End SearchPanelFacts.

(* ========================================================================== *)
(** * Lemmas on citation extraction                                            *)
(* ========================================================================== *)

Module AnalysisPanelFacts.
Import Types AnalysisPanel.

Lemma span_digits_spec (l ds r : list ascii) :
  span_digits l = (ds, r) -> l = ds ++ r /\ forallb is_digit ds = true.
Proof.
  revert ds r; induction l as [|c t IH]; intros ds r H; simpl in H.
  - injection H as <- <-. split; reflexivity.
  - destruct (is_digit c) eqn:Hc.
    + destruct (span_digits t) as [ds' r'] eqn:Ht.
      injection H as <- <-.
      destruct (IH ds' r' eq_refl) as [-> Hd].
      split; [reflexivity|]. simpl. rewrite Hc, Hd. reflexivity.
    + injection H as <- <-. split; reflexivity.
Qed.

(** A well-formed citation marker: [\[] digits [\]]. *)
Definition marker (ds : list ascii) : list ascii := lbracket :: ds ++ [rbracket].

Definition marker_digits (ds : list ascii) : Prop :=
  ds <> [] /\ forallb is_digit ds = true.

Lemma match_at_spec (l ds r : list ascii) :
  match_at l = Some (ds, r) -> l = marker ds ++ r /\ marker_digits ds.
Proof.
  unfold match_at, marker, marker_digits.
  destruct l as [|c t]; [discriminate|].
  destruct (Ascii.eqb c lbracket) eqn:Hc; [|discriminate].
  apply Ascii.eqb_eq in Hc; subst c.
  destruct (span_digits t) as [ds0 r0] eqn:Hs.
  destruct ds0 as [|d ds0]; [discriminate|].
  destruct r0 as [|c' r0]; [discriminate|].
  destruct (Ascii.eqb c' rbracket) eqn:Hc'; [|discriminate].
  apply Ascii.eqb_eq in Hc'; subst c'.
  intros H; injection H as <- <-.
  destruct (span_digits_spec _ _ _ Hs) as [-> Hd].
  split; [|split; [discriminate|exact Hd]].
  simpl. rewrite <- app_assoc. reflexivity.
Qed.

Lemma exec_unfold (l : list ascii) :
  exec l =
  match match_at l with
  | Some (ds, r) => Some ([], ds, r)
  | None =>
      match l with
      | c :: t =>
          match exec t with
          | Some (b, ds, r) => Some (c :: b, ds, r)
          | None => None
          end
      | [] => None
      end
  end.
Proof. destruct l; reflexivity. Qed.

Lemma exec_spec (l b ds r : list ascii) :
  exec l = Some (b, ds, r) -> l = b ++ marker ds ++ r /\ marker_digits ds.
Proof.
  revert b ds r; induction l as [|c t IH]; intros b ds r H.
  - discriminate.
  - rewrite exec_unfold in H.
    destruct (match_at (c :: t)) as [[ds0 r0]|] eqn:Hm.
    + injection H as <- <- <-. exact (match_at_spec _ _ _ Hm).
    + destruct (exec t) as [[[b0 ds0] r0]|] eqn:He; [|discriminate].
      injection H as <- <- <-.
      destruct (IH b0 ds0 r0 eq_refl) as [-> Hd].
      split; [reflexivity|exact Hd].
Qed.

Lemma marker_length (ds : list ascii) :
  List.length (marker ds) = (List.length ds + 2)%nat.
Proof. unfold marker. simpl. rewrite length_app. simpl. lia. Qed.

Lemma skipn_app_length {A : Type} (a l : list A) (k : nat) :
  skipn (List.length a + k) (a ++ l) = skipn k l.
Proof. induction a as [|x a IH]; simpl; [reflexivity|exact IH]. Qed.

(** Concatenating the text parts and the matched markers gives back the
    text the loop started from. *)
Lemma citation_loop_source (fuel : nat) (chunks : list Chunk) (li : nat)
    (rest : list ascii) :
  (List.length rest < fuel)%nat ->
  concat (map part_source (citation_loop fuel chunks li rest)) = rest.
Proof.
  revert li rest; induction fuel as [|fuel IH]; intros li rest Hfuel; [lia|].
  simpl. destruct (exec rest) as [[[b ds] r]|] eqn:He.
  - destruct (exec_spec _ _ _ _ He) as [Hrest Hd].
    assert (List.length r < fuel)%nat as Hr.
    { rewrite Hrest in Hfuel. rewrite !length_app, marker_length in Hfuel. lia. }
    rewrite map_app, concat_app. simpl.
    rewrite (IH _ _ Hr).
    fold (marker ds).
    rewrite Hrest.
    destruct b as [|c b]; simpl; rewrite ?app_nil_r; reflexivity.
  - destruct rest as [|c t]; simpl; [reflexivity|].
    rewrite app_nil_r. reflexivity.
Qed.

(** Each entry of the loop's output: a non-empty text, or a citation for a
    well-formed marker found at its index, whose chunk is
    [chunks[citationNumber - 1]]. *)
Lemma citation_loop_parts (fuel : nat) (chunks : list Chunk) (li : nat)
    (rest : list ascii) (p : Part) :
  In p (citation_loop fuel chunks li rest) ->
  match p with
  | PText s => s <> []
  | PCitation idx m n ck =>
      (li <= idx)%nat
      /\ firstn (List.length m) (skipn (idx - li) rest) = m
      /\ (exists ds, m = marker ds /\ marker_digits ds /\ n = parseInt ds)
      /\ ck = js_index chunks (n - 1)
  end.
Proof.
  revert li rest; induction fuel as [|fuel IH]; intros li rest Hin;
    simpl in Hin; [destruct Hin|].
  destruct (exec rest) as [[[b ds] r]|] eqn:He.
  - destruct (exec_spec _ _ _ _ He) as [Hrest Hd].
    apply in_app_or in Hin. destruct Hin as [Hin|[Hp|Hin]].
    + destruct (0 <? List.length b)%nat eqn:Hb; [|destruct Hin].
      destruct Hin as [<-|[]].
      intros ->. discriminate.
    + subst p. fold (marker ds).
      split; [lia|]. split.
      * rewrite Hrest. replace (li + List.length b - li)%nat with (List.length b) by lia.
        rewrite skipn_app, skipn_all, Nat.sub_diag. simpl.
        rewrite firstn_app, Nat.sub_diag. simpl.
        rewrite firstn_all, app_nil_r. reflexivity.
      * split; [exists ds; split; [reflexivity|split; [exact Hd|reflexivity]]|].
        reflexivity.
    + specialize (IH _ _ Hin).
      destruct p as [s|idx m n ck]; [exact IH|].
      destruct IH as (Hli & Hm & Hrest').
      assert (S (List.length (ds ++ [rbracket])) = List.length (marker ds)) as HL
        by reflexivity.
      rewrite HL in Hli, Hm.
      split; [lia|]. split; [|exact Hrest'].
      rewrite Hrest.
      replace (idx - li)%nat
        with (List.length b + (List.length (marker ds)
               + (idx - (li + List.length b + List.length (marker ds)))))%nat
        by lia.
      rewrite !skipn_app_length. exact Hm.
  - destruct (0 <? List.length rest)%nat eqn:Hr; [|destruct Hin].
    destruct Hin as [<-|[]].
    destruct rest; [discriminate|]. discriminate.
Qed.

Lemma js_index_Some {A : Type} (l : list A) (i : Z) (x : A) :
  js_index l i = Some x <->
  (0 <= i < Z.of_nat (List.length l))%Z /\ nth_error l (Z.to_nat i) = Some x.
Proof.
  unfold js_index. destruct (i <? 0)%Z eqn:Hi.
  - apply Z.ltb_lt in Hi. split; [discriminate|lia].
  - apply Z.ltb_ge in Hi. split.
    + intros H. split; [|exact H].
      assert (nth_error l (Z.to_nat i) <> None) as Hn by congruence.
      apply nth_error_Some in Hn. lia.
    + intros [_ H]. exact H.
Qed.

Lemma js_index_None {A : Type} (l : list A) (i : Z) :
  js_index l i = None <-> (i < 0 \/ Z.of_nat (List.length l) <= i)%Z.
Proof.
  unfold js_index. destruct (i <? 0)%Z eqn:Hi.
  - apply Z.ltb_lt in Hi. split; [intros _; left; exact Hi|reflexivity].
  - apply Z.ltb_ge in Hi. rewrite nth_error_None. lia.
Qed.

Lemma processText_parts (chunks : list Chunk) (node : list ascii) (p : Part) :
  In p (parts_of (processText chunks node)) ->
  In p (citation_loop (S (List.length node)) chunks 0 node).
Proof.
  unfold processText.
  destruct (citation_loop (S (List.length node)) chunks 0 node) eqn:Hl;
    simpl; [intros []|].
  exact (fun H => H).
Qed.

(** ** Claim C5 *)

(** C5: [processText] leaves the text outside the citation markers as it
    is: the text parts and the matched markers, concatenated in order, give
    back the input string; every text part is non-empty, and every citation
    stands for a well-formed [\[digits\]] marker found at its index in the
    input. *)
Theorem processText_preserves_text (chunks : list Chunk) (node : list ascii) :
  source_of (processText chunks node) = node
  /\ (forall p, In p (parts_of (processText chunks node)) ->
        match p with
        | PText s => s <> []
        | PCitation idx m _ _ =>
            firstn (List.length m) (skipn idx node) = m
            /\ exists ds, m = marker ds /\ marker_digits ds
        end).
Proof.
  split.
  - unfold processText.
    pose proof (citation_loop_source (S (List.length node)) chunks 0 node
                  (Nat.lt_succ_diag_r _)) as Hs.
    destruct (citation_loop (S (List.length node)) chunks 0 node); simpl;
      [reflexivity|exact Hs].
  - intros p Hin.
    pose proof (citation_loop_parts _ chunks 0 node p
                  (processText_parts chunks node p Hin)) as Hp.
    destruct p as [s|idx m n ck]; [exact Hp|].
    destruct Hp as (_ & Hm & (ds & Hds & Hd & _) & _).
    rewrite Nat.sub_0_r in Hm.
    split; [exact Hm|exists ds; split; assumption].
Qed.

(** ** Claim C2 *)

(** C2: a citation with number [n] carries [chunks[n - 1]], a chunk exactly
    when [1 <= n <= length chunks]; otherwise it carries none and
    [CitationComponent] renders the plain span [[n]]; with a chunk it
    renders a chip for that chunk. *)
Theorem citation_resolution (chunks : list Chunk) (node : list ascii)
    (idx : nat) (m : list ascii) (n : Z) (ck : option Chunk) :
  In (PCitation idx m n ck) (parts_of (processText chunks node)) ->
  (forall c, ck = Some c <->
     (1 <= n <= Z.of_nat (List.length chunks))%Z
     /\ nth_error chunks (Z.to_nat (n - 1)) = Some c)
  /\ (ck = None <-> (n < 1 \/ Z.of_nat (List.length chunks) < n)%Z)
  /\ (ck = None -> CitationComponent n ck = RSpan n)
  /\ (forall c, ck = Some c -> exists tip, CitationComponent n ck = RChip n tip c).
Proof.
  intros Hin.
  pose proof (citation_loop_parts _ chunks 0 node _
                (processText_parts chunks node _ Hin)) as Hp.
  destruct Hp as (_ & _ & _ & ->).
  split; [|split; [|split]].
  - intros c. rewrite js_index_Some.
    split; intros [H1 H2]; (split; [lia|exact H2]).
  - rewrite js_index_None. lia.
  - intros ->. reflexivity.
  - intros c ->. simpl. eexists. reflexivity.
Qed.

Lemma citation_resolution_witness :
  In (PCitation 6 (list_ascii_of_string "[2]") 2 None)
     (parts_of (processText
        [mkChunk 1 "Mauerbau"%string (mkChunkMetadata (Some "Die Mauer"%string) (Some "1961"%string)) 1 None]
        (list_ascii_of_string "siehe [2] und [1]")))
  /\ ((forall c, None = Some c <->
        (1 <= 2 <= Z.of_nat (List.length
           [mkChunk 1 "Mauerbau"%string (mkChunkMetadata (Some "Die Mauer"%string) (Some "1961"%string)) 1 None]))%Z
        /\ nth_error
             [mkChunk 1 "Mauerbau"%string (mkChunkMetadata (Some "Die Mauer"%string) (Some "1961"%string)) 1 None]
             (Z.to_nat (2 - 1)) = Some c)
      /\ (@None Chunk = None <->
          (2 < 1 \/ Z.of_nat (List.length
             [mkChunk 1 "Mauerbau"%string (mkChunkMetadata (Some "Die Mauer"%string) (Some "1961"%string)) 1 None])
             < 2)%Z)
      /\ (@None Chunk = None -> CitationComponent 2 None = RSpan 2)
      /\ (forall c, None = Some c -> exists tip, CitationComponent 2 None = RChip 2 tip c)).
Proof.
  split.
  - vm_compute. right. left. reflexivity.
  - apply (citation_resolution _ (list_ascii_of_string "siehe [2] und [1]") 6
             (list_ascii_of_string "[2]") 2 None).
    vm_compute. right. left. reflexivity.
Defined.

(** ** Claim C3 *)

(** C3 fails on the code: [processText] knows one notation only, the
    bracketed [[n]]. In a text where three parenthesized citations outnumber
    one bracketed citation, only the bracketed one is extracted. *)
Theorem processText_only_bracketed (chunks : list Chunk) :
  citation_numbers
    (processText chunks
       (list_ascii_of_string "Die Mauer (1) fiel (2), vgl. (3) und [1]."))
  = [1%Z].
Proof. reflexivity. Qed.

(** ** Claim C6 *)

(** C6 fails on the code: for the non-sequential citations [[1], [3]] the
    renderer emits exactly the two citation elements and the text between
    them, both resolved to their chunks; no element flags the gap. *)
Theorem processText_no_sequence_flag (c1 c2 c3 : Chunk) :
  processText [c1; c2; c3] (list_ascii_of_string "[1], [3]")
  = RParts [PCitation 0 (list_ascii_of_string "[1]") 1 (Some c1);
            PText (list_ascii_of_string ", ");
            PCitation 5 (list_ascii_of_string "[3]") 3 (Some c3)].
Proof. reflexivity. Qed.

End AnalysisPanelFacts.

(* ========================================================================== *)
(** * Lemmas on the search action                                              *)
(* ========================================================================== *)

Module AppStoreFacts.
Import Types AppStore.
Open Scope Z_scope.

Lemma with_ids_from_length (index : nat) (cs : list Chunk) :
  List.length (with_ids_from index cs) = List.length cs.
Proof.
  revert index; induction cs as [|c t IH]; intros index; simpl; [reflexivity|].
  rewrite IH. reflexivity.
Qed.

Lemma with_ids_from_nth (index : nat) (cs : list Chunk) (i : nat) (c : Chunk) :
  nth_error cs i = Some c ->
  nth_error (with_ids_from index cs) i = Some (set_id c (Z.of_nat (index + i) + 1)).
Proof.
  revert index i; induction cs as [|c0 t IH]; intros index i H.
  - destruct i; discriminate.
  - destruct i as [|i]; simpl in H |- *.
    + injection H as ->. rewrite Nat.add_0_r. reflexivity.
    + rewrite (IH (S index) i H). do 3 f_equal. lia.
Qed.

Lemma with_ids_from_ids (index : nat) (cs : list Chunk) :
  map id (with_ids_from index cs)
  = map (fun i => Z.of_nat i + 1) (seq index (List.length cs)).
Proof.
  revert index; induction cs as [|c t IH]; intros index; simpl; [reflexivity|].
  rewrite IH. reflexivity.
Qed.

(** ** Claim C4 *)

(** C4: after a successful [performSearch] the chunk at position [i] of
    [searchResults.chunks] is the [i]-th chunk of the response with id
    [i + 1], so the ids are [1 .. N] in list order; the list depends only on
    the response's chunk list: any run whose response has the same chunks
    produces the same list. *)
Theorem performSearch_assigns_ids (api : string -> ApiOutcome)
    (searchType : string) (st : AppState) (data : SearchResults) :
  api (endpoint searchType) = ApiOk data ->
  exists r,
    searchResults (performSearch api searchType st) = Some r
    /\ List.length (chunks r) = List.length (chunks data)
    /\ (forall i c, nth_error (chunks data) i = Some c ->
          nth_error (chunks r) i = Some (set_id c (Z.of_nat i + 1)))
    /\ map id (chunks r) = map (fun i => Z.of_nat i + 1) (seq 0 (List.length (chunks data)))
    /\ (forall api' searchType' st' data',
          api' (endpoint searchType') = ApiOk data' -> chunks data' = chunks data ->
          option_map chunks (searchResults (performSearch api' searchType' st'))
          = Some (chunks r)).
Proof.
  intros Hapi.
  unfold performSearch. rewrite Hapi. simpl.
  eexists. split; [reflexivity|]. simpl.
  split; [|split; [|split]].
  - apply with_ids_from_length.
  - intros i c Hc. exact (with_ids_from_nth 0 _ i c Hc).
  - apply with_ids_from_ids.
  - intros api' searchType' st' data' Hapi' Hd.
    unfold performSearch. rewrite Hapi'. simpl. rewrite Hd. reflexivity.
Qed.

Lemma performSearch_assigns_ids_witness :
  let data := mkSearchResults
      [mkChunk 7 "a"%string (mkChunkMetadata None None) 1 None;
       mkChunk 7 "b"%string (mkChunkMetadata None None) (1 # 2) None] (1 # 10) 2 in
  let api := fun (_ : string) => ApiOk data in
  let st := mkAppState 0 false None None [] false None [] None in
  api (endpoint "standard") = ApiOk data /\
  exists r,
    searchResults (performSearch api "standard" st) = Some r
    /\ List.length (chunks r) = List.length (chunks data)
    /\ (forall i c, nth_error (chunks data) i = Some c ->
          nth_error (chunks r) i = Some (set_id c (Z.of_nat i + 1)))
    /\ map id (chunks r) = map (fun i => Z.of_nat i + 1) (seq 0 (List.length (chunks data)))
    /\ (forall api' searchType' st' data',
          api' (endpoint searchType') = ApiOk data' -> chunks data' = chunks data ->
          option_map chunks (searchResults (performSearch api' searchType' st'))
          = Some (chunks r)).
Proof.
  intros data api st. split; [reflexivity|].
  apply (performSearch_assigns_ids api "standard" st data). reflexivity.
Defined.

(** ** Claim C9 *)

(** C9: [performSearch] always ends with [isSearching = false], with
    [transferredChunks] and [analysisResult] cleared by its first [set] and
    still cleared at the end; on success [searchResults] is set,
    [searchError] is null and every returned chunk is selected; on failure
    [searchResults] is null and [searchError] holds a message. *)
Theorem performSearch_final_state (api : string -> ApiOutcome)
    (searchType : string) (st : AppState) :
  let st1 := search_start st in
  let st2 := performSearch api searchType st in
  isSearching st1 = true /\ transferredChunks st1 = [] /\ analysisResult st1 = None
  /\ isSearching st2 = false /\ transferredChunks st2 = [] /\ analysisResult st2 = None
  /\ match api (endpoint searchType) with
     | ApiOk _ =>
         searchError st2 = None
         /\ exists r, searchResults st2 = Some r
                      /\ selectedChunkIds st2 = map id (chunks r)
     | ApiErr err =>
         searchResults st2 = None
         /\ searchError st2 = Some (errorMessage_of err)
     end.
Proof.
  intros st1 st2. subst st1 st2. unfold performSearch.
  destruct (api (endpoint searchType)) as [data|err]; simpl;
    repeat split; try reflexivity.
  eexists. split; reflexivity.
Qed.

End AppStoreFacts.

(* ========================================================================== *)
(** * Lemmas on the score statistics                                          *)
(* ========================================================================== *)

Module ScoreVisualizationFacts.
Import Types ScoreVisualization.
Open Scope Q_scope.

Lemma insert_sorted_perm (x : Q) (l : list Q) :
  Permutation (insert_sorted x l) (x :: l).
Proof.
  induction l as [|y t IH]; simpl; [reflexivity|].
  destruct (Qle_bool y x); [|reflexivity].
  rewrite IH. apply perm_swap.
Qed.

Lemma sort_numbers_perm_acc (l acc : list Q) :
  Permutation (fold_left (fun acc x => insert_sorted x acc) l acc) (l ++ acc).
Proof.
  revert acc; induction l as [|x t IH]; intros acc; simpl; [reflexivity|].
  rewrite IH, insert_sorted_perm. symmetry. apply Permutation_middle.
Qed.

Lemma sort_numbers_perm (l : list Q) : Permutation (sort_numbers l) l.
Proof.
  unfold sort_numbers. rewrite sort_numbers_perm_acc, app_nil_r. reflexivity.
Qed.

Lemma insert_sorted_sorted (x : Q) (l : list Q) :
  StronglySorted Qle l -> StronglySorted Qle (insert_sorted x l).
Proof.
  induction l as [|y t IH]; intros Hs; simpl.
  - constructor; constructor.
  - apply StronglySorted_inv in Hs. destruct Hs as [Ht Hy].
    destruct (Qle_bool y x) eqn:Hyx.
    + apply Qle_bool_iff in Hyx.
      constructor; [exact (IH Ht)|].
      apply Forall_forall. intros z Hz.
      apply (Permutation_in _ (insert_sorted_perm x t)) in Hz.
      destruct Hz as [<-|Hz]; [exact Hyx|].
      exact (proj1 (Forall_forall _ _) Hy z Hz).
    + assert (x < y) as Hxy.
      { apply Qnot_le_lt. intros H. apply Qle_bool_iff in H. congruence. }
      constructor; [constructor; assumption|].
      constructor; [apply Qlt_le_weak; exact Hxy|].
      apply Forall_forall. intros z Hz.
      apply Qle_trans with y; [apply Qlt_le_weak; exact Hxy|].
      exact (proj1 (Forall_forall _ _) Hy z Hz).
Qed.

Lemma sort_numbers_sorted (l : list Q) : StronglySorted Qle (sort_numbers l).
Proof.
  unfold sort_numbers.
  assert (forall acc, StronglySorted Qle acc ->
            StronglySorted Qle (fold_left (fun acc x => insert_sorted x acc) l acc))
    as H.
  { induction l as [|x t IH]; intros acc Hacc; simpl; [exact Hacc|].
    apply IH, insert_sorted_sorted, Hacc. }
  apply H. constructor.
Qed.

Lemma sorted_nth_le (l : list Q) (i j : nat) :
  StronglySorted Qle l -> (i <= j < List.length l)%nat ->
  nth i l 0 <= nth j l 0.
Proof.
  revert i j; induction l as [|y t IH]; intros i j Hs Hij; simpl in Hij; [lia|].
  apply StronglySorted_inv in Hs. destruct Hs as [Ht Hy].
  destruct i as [|i]; destruct j as [|j]; simpl.
  - apply Qle_refl.
  - apply (proj1 (Forall_forall _ _) Hy). apply nth_In. lia.
  - lia.
  - apply IH; [exact Ht|lia].
Qed.

Lemma js_index_nth (l : list Q) (i : Z) :
  (0 <= i < Z.of_nat (List.length l))%Z -> js_index l i = Some (nth (Z.to_nat i) l 0).
Proof.
  intros Hi. unfold js_index.
  replace (i <? 0)%Z with false by (symmetry; apply Z.ltb_ge; lia).
  apply nth_error_nth'. lia.
Qed.

Lemma Qfloor_mul_frac (n : Z) (a : Z) (b : positive) :
  Qfloor (inject_Z n * (a # b)) = (n * a / Z.pos b)%Z.
Proof.
  unfold Qfloor, inject_Z, Qmult. simpl. reflexivity.
Qed.

Lemma Qmax_cases (a b : Q) : (Qmax a b = b /\ a < b) \/ (Qmax a b = a /\ b <= a).
Proof.
  unfold Qmax, GenericMinMax.gmax.
  destruct (a ?= b) eqn:H.
  - right. split; [reflexivity|]. apply Qeq_alt in H. rewrite H. apply Qle_refl.
  - left. split; [reflexivity|]. apply Qlt_alt. exact H.
  - right. split; [reflexivity|]. apply Qlt_le_weak. apply Qgt_alt. exact H.
Qed.

Lemma Qmin_cases (a b : Q) : (Qmin a b = b /\ b < a) \/ (Qmin a b = a /\ a <= b).
Proof.
  unfold Qmin, GenericMinMax.gmin.
  destruct (a ?= b) eqn:H.
  - right. split; [reflexivity|]. apply Qeq_alt in H. rewrite H. apply Qle_refl.
  - right. split; [reflexivity|]. apply Qlt_le_weak. apply Qlt_alt. exact H.
  - left. split; [reflexivity|]. apply Qgt_alt. exact H.
Qed.

Lemma binIndex_fixed_bounds (score : Q) :
  0 <= score <= 1 -> (0 <= binIndex_fixed score <= bins - 1)%Z.
Proof.
  intros [H0 H1]. unfold binIndex_fixed, bins.
  change (inject_Z 10) with (10 # 1).
  assert (0 <= score * (10 # 1)) as Hp by lra.
  pose proof (Qfloor_resp_le 0 _ Hp) as Hf.
  change (Qfloor 0) with 0%Z in Hf.
  lia.
Qed.

(** On the dynamic axis every score between [statsMin] and [statsMax]
    within [[0, 1]] falls in a bin of [0 .. bins - 1]. *)
Lemma binIndex_scaled_bounds (mn mx score : Q) :
  0 <= mn -> mn <= score -> score <= mx -> mx <= 1 ->
  (0 <= binIndex_scaled (fst (y_axis mn mx)) (snd (y_axis mn mx)) score
     <= bins - 1)%Z.
Proof.
  intros H0 H1 H2 H3. unfold y_axis, binIndex_scaled, bins. cbn [fst snd].
  set (padding := Qmax (5 # 100) ((mx - mn) * (2 # 10))).
  assert (5 # 100 <= padding) as Hpad.
  { unfold padding. destruct (Qmax_cases (5 # 100) ((mx - mn) * (2 # 10)))
      as [[-> ?]|[-> ?]]; lra. }
  set (yMin := Qmax 0 (mn - padding)).
  assert (yMin <= score /\ yMin <= 95 # 100) as [HyMin HyMin1].
  { unfold yMin. destruct (Qmax_cases 0 (mn - padding)) as [[-> ?]|[-> ?]]; lra. }
  assert (0 < Qmin 1 (mx + padding) - yMin) as Hrange.
  { destruct (Qmin_cases 1 (mx + padding)) as [[-> ?]|[-> ?]];
      unfold yMin; destruct (Qmax_cases 0 (mn - padding)) as [[-> ?]|[-> ?]]; lra. }
  assert (0 <= (score - yMin) / (Qmin 1 (mx + padding) - yMin)) as Hn.
  { apply Qle_shift_div_l; [exact Hrange|]. lra. }
  change (inject_Z 10) with (10 # 1).
  assert (0 <= (score - yMin) / (Qmin 1 (mx + padding) - yMin) * (10 # 1)) as Hp
    by lra.
  pose proof (Qfloor_resp_le 0 _ Hp) as Hf.
  change (Qfloor 0) with 0%Z in Hf.
  lia.
Qed.

(** ** Claim C10 *)

(** C10: [calculateStats] returns null exactly for the empty list; for a
    non-empty list every read of the sorted copy (min, max and the three
    quartile indices) is inside the array ([Some]) with
    min <= q1 <= median <= q3 <= max; and for scores in [[0, 1]] the bin
    index of both ViolinPlot variants lies in [0 .. bins - 1], with the
    score 1.0 in the last bin. *)
Theorem calculateStats_in_bounds (scores : list Q) :
  (calculateStats scores = None <-> scores = [])
  /\ (scores <> [] -> (forall s, In s scores -> 0 <= s <= 1) ->
      exists mn mx mean q1 md q3,
        calculateStats scores
          = Some (mkStats (Some mn) (Some mx) mean (Some q1) (Some md) (Some q3))
        /\ mn <= q1 /\ q1 <= md /\ md <= q3 /\ q3 <= mx
        /\ (forall s, In s scores ->
              (0 <= binIndex_fixed s <= bins - 1)%Z
              /\ (0 <= binIndex_scaled (fst (y_axis mn mx)) (snd (y_axis mn mx)) s
                     <= bins - 1)%Z))
  /\ binIndex_fixed 1 = (bins - 1)%Z.
Proof.
  split; [|split; [|reflexivity]].
  - destruct scores; simpl; split; congruence.
  - intros Hne Hrange.
    pose proof (sort_numbers_perm scores) as Hperm.
    pose proof (sort_numbers_sorted scores) as Hsorted.
    pose proof (Permutation_length Hperm) as Hlen.
    set (sorted := sort_numbers scores) in *.
    set (n := List.length scores) in *.
    assert (1 <= n)%nat as Hn.
    { unfold n. destruct scores; [congruence|simpl; lia]. }
    assert (forall s, In s scores ->
              nth 0 sorted 0 <= s /\ s <= nth (n - 1) sorted 0) as Hmem.
    { intros s Hs.
      apply (Permutation_in _ (Permutation_sym Hperm)) in Hs.
      apply In_nth with (d := 0) in Hs. destruct Hs as (k & Hk & <-).
      split; apply sorted_nth_le; auto; lia. }
    assert (calculateStats scores =
      Some (mkStats (Some (nth 0 sorted 0)) (Some (nth (n - 1) sorted 0))
              (fold_left Qplus scores 0 / inject_Z (Z.of_nat n))
              (Some (nth (Z.to_nat (Z.of_nat n * 25 / 100)) sorted 0))
              (Some (nth (Z.to_nat (Z.of_nat n * 5 / 10)) sorted 0))
              (Some (nth (Z.to_nat (Z.of_nat n * 75 / 100)) sorted 0)))) as Hcalc.
    { unfold calculateStats.
      destruct scores as [|s0 rest]; [congruence|].
      cbv zeta. fold sorted. rewrite Hlen. fold n.
      rewrite !Qfloor_mul_frac.
      assert (forall i, (0 <= i < Z.of_nat n)%Z ->
                js_index sorted i = Some (nth (Z.to_nat i) sorted 0)) as Hix.
      { intros i Hi. apply js_index_nth. rewrite Hlen. exact Hi. }
      rewrite (Hix 0%Z) by lia.
      rewrite (Hix (Z.of_nat n - 1)%Z) by lia.
      rewrite (Hix (Z.of_nat n * 25 / 100)%Z) by (Z.div_mod_to_equations; lia).
      rewrite (Hix (Z.of_nat n * 5 / 10)%Z) by (Z.div_mod_to_equations; lia).
      rewrite (Hix (Z.of_nat n * 75 / 100)%Z) by (Z.div_mod_to_equations; lia).
      replace (Z.to_nat 0) with 0%nat by reflexivity.
      replace (Z.to_nat (Z.of_nat n - 1)) with (n - 1)%nat by lia.
      reflexivity. }
    eexists _, _, _, _, _, _. split; [exact Hcalc|].
    split; [apply sorted_nth_le; auto; Z.div_mod_to_equations; lia|].
    split; [apply sorted_nth_le; auto; Z.div_mod_to_equations; lia|].
    split; [apply sorted_nth_le; auto; Z.div_mod_to_equations; lia|].
    split; [apply sorted_nth_le; auto; Z.div_mod_to_equations; lia|].
    intros s Hs. split.
    + apply binIndex_fixed_bounds, Hrange, Hs.
    + destruct (Hmem s Hs) as [Hlo Hhi].
      assert (In (nth 0 sorted 0) scores) as Hmin.
      { apply (Permutation_in _ Hperm). apply nth_In. lia. }
      assert (In (nth (n - 1) sorted 0) scores) as Hmax.
      { apply (Permutation_in _ Hperm). apply nth_In. lia. }
      apply binIndex_scaled_bounds; auto.
      * apply Hrange, Hmin.
      * apply Hrange, Hmax.
Qed.

Lemma calculateStats_in_bounds_witness :
  ([1; 1 # 2; 0; 3 # 10] <> [] /\
   (forall s, In s [1; 1 # 2; 0; 3 # 10] -> 0 <= s <= 1)) /\
  ((calculateStats [1; 1 # 2; 0; 3 # 10] = None <-> [1; 1 # 2; 0; 3 # 10] = [])
   /\ ([1; 1 # 2; 0; 3 # 10] <> [] ->
       (forall s, In s [1; 1 # 2; 0; 3 # 10] -> 0 <= s <= 1) ->
       exists mn mx mean q1 md q3,
         calculateStats [1; 1 # 2; 0; 3 # 10]
           = Some (mkStats (Some mn) (Some mx) mean (Some q1) (Some md) (Some q3))
         /\ mn <= q1 /\ q1 <= md /\ md <= q3 /\ q3 <= mx
         /\ (forall s, In s [1; 1 # 2; 0; 3 # 10] ->
               (0 <= binIndex_fixed s <= bins - 1)%Z
               /\ (0 <= binIndex_scaled (fst (y_axis mn mx)) (snd (y_axis mn mx)) s
                      <= bins - 1)%Z))
   /\ binIndex_fixed 1 = (bins - 1)%Z).
Proof.
  split.
  - split; [discriminate|].
    intros s Hs. simpl in Hs.
    destruct Hs as [<-|[<-|[<-|[<-|[]]]]]; split; vm_compute; discriminate.
  - exact (calculateStats_in_bounds [1; 1 # 2; 0; 3 # 10]).
Defined.

End ScoreVisualizationFacts.

(* ========================================================================== *)
(** * More on the interval previews                                            *)
(* ========================================================================== *)

Module SearchPanelExtra.
Import SearchPanel SearchPanelLlm SearchPanelFacts.
Open Scope Z_scope.

Lemma interval_loop_full_windows (fuel : nat) (cs ye size : Z) (ws : list (Z * Z)) :
  interval_loop fuel cs ye size = Some ws ->
  forall i s e, (S i < List.length ws)%nat -> nth_error ws i = Some (s, e) ->
  e - s + 1 = size.
Proof.
  revert cs ws; induction fuel as [|fuel IH]; intros cs ws Hloop i s e Hi Hnth;
    simpl in Hloop; [discriminate|].
  destruct (cs <=? ye) eqn:Hle; [|injection Hloop as <-; simpl in Hi; lia].
  destruct (interval_loop fuel (Z.min (cs + size - 1) ye + 1) ye size)
    as [rest|] eqn:Hrest; simpl in Hloop; [|discriminate].
  injection Hloop as <-.
  destruct i as [|i].
  - simpl in Hnth. injection Hnth as <- <-.
    destruct (Z.le_gt_cases (cs + size - 1) ye) as [Hlt|Hgt].
    + rewrite Z.min_l by exact Hlt. lia.
    + rewrite Z.min_r in Hrest by lia.
      destruct fuel; simpl in Hrest; [discriminate|].
      replace (ye + 1 <=? ye) with false in Hrest by (symmetry; apply Z.leb_gt; lia).
      injection Hrest as <-. simpl in Hi. lia.
  - simpl in Hi, Hnth. exact (IH _ _ Hrest i s e ltac:(lia) Hnth).
Qed.

(** The preview's windows: every window but the last spans exactly
    [time_interval_size] years, the last at most that many. *)
Theorem timeIntervalCalculation_full_windows (fuel : nat) (ys ye size span n : Z)
    (ws : list (Z * Z)) :
  1 <= size ->
  timeIntervalCalculation fuel (mkForm ys ye size) = Some (CalcIntervals span n ws) ->
  (forall i s e, (S i < List.length ws)%nat -> nth_error ws i = Some (s, e) ->
     e - s + 1 = size)
  /\ (forall s e, In (s, e) ws -> s <= e /\ e - s + 1 <= size).
Proof.
  intros Hsize H. unfold timeIntervalCalculation in H. simpl in H.
  destruct (ye <? ys) eqn:Hlt; [discriminate|].
  destruct (interval_loop fuel ys ye size) as [ws'|] eqn:Hloop; [|discriminate].
  injection H as _ _ <-.
  split.
  - exact (interval_loop_full_windows fuel ys ye size ws' Hloop).
  - intros s e Hin.
    pose proof (chain_in ys ye ws' (interval_loop_chain fuel ys ye size ws' Hsize Hloop)
                  s e Hin).
    pose proof (interval_loop_window_size fuel ys ye size ws' Hloop s e Hin). lia.
Qed.

Lemma timeIntervalCalculation_full_windows_witness :
  (1 <= 4 /\
   timeIntervalCalculation 20 (mkForm 1960 1970 4)
     = Some (CalcIntervals 11 3 [(1960, 1963); (1964, 1967); (1968, 1970)])) /\
  ((forall i s e, (S i < List.length ([(1960, 1963); (1964, 1967); (1968, 1970)] : list (Z * Z))%Z)%nat ->
      nth_error [(1960, 1963); (1964, 1967); (1968, 1970)] i = Some (s, e) ->
      e - s + 1 = 4)
   /\ (forall s e, In (s, e) [(1960, 1963); (1964, 1967); (1968, 1970)] ->
         s <= e /\ e - s + 1 <= 4)).
Proof.
  split; [split; [lia|reflexivity]|].
  apply (timeIntervalCalculation_full_windows 20 1960 1970 4 11 3); [lia|reflexivity].
Defined.

(** The LLM-assisted preview ([llmTimeIntervalCalculation]) with
    [year_start <= year_end] and [llm_assisted_time_interval_size >= 1]
    finishes with contiguous windows of at most that size, which together
    hold every year of the range exactly once, and announces as many
    intervals as it lists. *)
Theorem llmTimeIntervalCalculation_partitions (fuel : nat) (ys ye size : Z) :
  ys <= ye -> 1 <= size -> (loop_fuel ys ye <= fuel)%nat ->
  exists ws,
    llmTimeIntervalCalculation fuel (mkLlmSearchFormState true ys ye size)
      = Some (CalcIntervals (ye - ys + 1) (Z.of_nat (List.length ws)) ws)
    /\ contiguous ws
    /\ (forall s e, In (s, e) ws -> s <= e <= ye /\ e <= s + size - 1)
    /\ (forall y, windows_containing ws y
                  = if (ys <=? y) && (y <=? ye) then 1%nat else 0%nat).
Proof.
  intros Hle Hsize Hfuel.
  destruct (interval_loop_terminates fuel ys ye size Hsize Hfuel) as [ws Hws].
  pose proof (interval_loop_chain fuel ys ye size ws Hsize Hws) as Hc.
  exists ws. split; [|split; [|split]].
  - unfold llmTimeIntervalCalculation. simpl.
    replace (ye <? ys) with false by (symmetry; apply Z.ltb_ge; exact Hle).
    rewrite Hws. rewrite num_intervals_of_div by exact Hsize.
    rewrite (interval_loop_length fuel ys ye size ws Hsize ltac:(lia) Hws).
    do 3 f_equal. ring.
  - exact (chain_contiguous ys ye ws Hc).
  - intros s e Hin.
    pose proof (chain_in ys ye ws Hc s e Hin).
    pose proof (interval_loop_window_size fuel ys ye size ws Hws s e Hin). lia.
  - intros y. exact (chain_windows_containing ys ye ws y Hc).
Qed.

Lemma llmTimeIntervalCalculation_partitions_witness :
  (1960 <= 1970 /\ 1 <= 3 /\ (loop_fuel 1960 1970 <= 12)%nat) /\
  exists ws,
    llmTimeIntervalCalculation 12 (mkLlmSearchFormState true 1960 1970 3)
      = Some (CalcIntervals (1970 - 1960 + 1) (Z.of_nat (List.length ws)) ws)
    /\ contiguous ws
    /\ (forall s e, In (s, e) ws -> s <= e <= 1970 /\ e <= s + 3 - 1)
    /\ (forall y, windows_containing ws y
                  = if (1960 <=? y) && (y <=? 1970) then 1%nat else 0%nat).
Proof.
  split; [split; [lia|split; [lia|vm_compute; lia]]|].
  apply (llmTimeIntervalCalculation_partitions 12 1960 1970 3);
    [lia|lia|vm_compute; lia].
Defined.

End SearchPanelExtra.

(* ========================================================================== *)
(** * More on [processText]                                                    *)
(* ========================================================================== *)

Module AnalysisPanelExtra.
Import Types AnalysisPanel AnalysisPanelFacts.

(** The [match.index] of each citation element, in order: the first part of
    its React key [citation-${match.index}-${citationNumber}]. *)
Definition citation_indices (ps : list Part) : list nat :=
  flat_map (fun p => match p with
                     | PCitation idx _ _ _ => [idx]
                     | PText _ => []
                     end) ps.

(** No two text entries follow each other. *)
Fixpoint no_adjacent_text (ps : list Part) : Prop :=
  match ps with
  | PText _ :: (PText _ :: _) => False
  | _ :: t => no_adjacent_text t
  | [] => True
  end.

Lemma citation_loop_indices (fuel : nat) (chunks : list Chunk) (li : nat)
    (rest : list ascii) :
  Forall (fun i => li <= i)%nat (citation_indices (citation_loop fuel chunks li rest))
  /\ StronglySorted lt (citation_indices (citation_loop fuel chunks li rest)).
Proof.
  revert li rest; induction fuel as [|fuel IH]; intros li rest; simpl;
    [split; constructor|].
  destruct (exec rest) as [[[b ds] r]|] eqn:He.
  - unfold citation_indices. rewrite flat_map_app.
    destruct (IH (li + List.length b + List.length (lbracket :: ds ++ [rbracket]))%nat r)
      as [Hge Hs].
    unfold citation_indices in Hge, Hs.
    assert (forall A (x : list A),
      flat_map (fun p => match p with
                         | PCitation idx _ _ _ => [idx]
                         | PText _ => []
                         end)
               (if (0 <? List.length b)%nat then [PText b] else []) = []) as Hnil
      by (intros; destruct (0 <? List.length b)%nat; reflexivity).
    rewrite (Hnil nat []). simpl.
    split.
    + constructor; [lia|].
      eapply Forall_impl; [|exact Hge]. simpl. intros i Hi. lia.
    + constructor; [exact Hs|].
      eapply Forall_impl; [|exact Hge]. simpl. intros i Hi. lia.
  - destruct (0 <? List.length rest)%nat; simpl; split; repeat constructor.
Qed.

Lemma citation_loop_no_adjacent_text (fuel : nat) (chunks : list Chunk) (li : nat)
    (rest : list ascii) :
  no_adjacent_text (citation_loop fuel chunks li rest).
Proof.
  revert li rest; induction fuel as [|fuel IH]; intros li rest; simpl; [exact I|].
  destruct (exec rest) as [[[b ds] r]|] eqn:He.
  - destruct (0 <? List.length b)%nat; simpl; apply IH.
  - destruct (0 <? List.length rest)%nat; simpl; exact I.
Qed.

Lemma exec_no_bracket (l : list ascii) :
  forallb (fun c => negb (Ascii.eqb c lbracket)) l = true -> exec l = None.
Proof.
  intros H. destruct (exec l) as [[[b ds] r]|] eqn:He; [|reflexivity].
  destruct (exec_spec _ _ _ _ He) as [Hl _].
  subst l. rewrite forallb_app in H. apply andb_prop in H. destruct H as [_ H].
  discriminate H.
Qed.

(** The citation elements [processText] emits come in strictly increasing
    order of [match.index], so no two of them share the React key
    [citation-${match.index}-${citationNumber}]. *)
Theorem processText_citation_keys_increasing (chunks : list Chunk) (node : list ascii) :
  StronglySorted lt (citation_indices (parts_of (processText chunks node)))
  /\ NoDup (map (fun p => match p with
                          | PCitation idx _ n _ => Some (idx, n)
                          | PText _ => None
                          end)
                (filter (fun p => match p with PCitation _ _ _ _ => true | _ => false end)
                        (parts_of (processText chunks node)))).
Proof.
  assert (StronglySorted lt (citation_indices (parts_of (processText chunks node))))
    as Hs.
  { unfold processText.
    destruct (citation_loop_indices (S (List.length node)) chunks 0 node) as [_ Hs].
    destruct (citation_loop (S (List.length node)) chunks 0 node); simpl;
      [constructor|exact Hs]. }
  split; [exact Hs|].
  induction (parts_of (processText chunks node)) as [|p ps IHps]; simpl;
    [constructor|].
  destruct p as [s|idx m n ck]; simpl in Hs |- *; [exact (IHps Hs)|].
  apply StronglySorted_inv in Hs. destruct Hs as [Hs Hf].
  constructor; [|exact (IHps Hs)].
  intros Hin. apply in_map_iff in Hin.
  destruct Hin as [q [Hq Hin]]. apply filter_In in Hin. destruct Hin as [Hin Hc].
  destruct q as [s|idx' m' n' ck']; [discriminate|].
  injection Hq as Hidx _. subst idx'.
  rewrite Forall_forall in Hf.
  assert (In idx (citation_indices ps)) as Hi.
  { unfold citation_indices. apply in_flat_map. exists (PCitation idx m' n' ck').
    split; [exact Hin|left; reflexivity]. }
  specialize (Hf idx Hi). lia.
Qed.

(** Between two text entries of [processText]'s output there is always a
    citation element: the loop pushes the text before a match only together
    with the match, and the remaining text only at the end. *)
Theorem processText_no_adjacent_text (chunks : list Chunk) (node : list ascii) :
  no_adjacent_text (parts_of (processText chunks node)).
Proof.
  unfold processText.
  pose proof (citation_loop_no_adjacent_text (S (List.length node)) chunks 0 node) as H.
  destruct (citation_loop (S (List.length node)) chunks 0 node); simpl;
    [exact I|exact H].
Qed.

(** A string without any [\[] holds no citation: [processText] returns the
    empty string itself, and any other such string as its single text
    part. *)
Theorem processText_no_bracket (chunks : list Chunk) (node : list ascii) :
  forallb (fun c => negb (Ascii.eqb c lbracket)) node = true ->
  processText chunks node = match node with
                            | [] => RNode []
                            | _ => RParts [PText node]
                            end.
Proof.
  intros H. unfold processText. simpl.
  rewrite (exec_no_bracket node H).
  destruct node as [|c t]; reflexivity.
Qed.

Lemma processText_no_bracket_witness :
  forallb (fun c => negb (Ascii.eqb c lbracket))
          (list_ascii_of_string "Die Mauer (1) fiel 1989.") = true
  /\ processText [] (list_ascii_of_string "Die Mauer (1) fiel 1989.")
     = RParts [PText (list_ascii_of_string "Die Mauer (1) fiel 1989.")].
Proof.
  split; [reflexivity|].
  apply (processText_no_bracket [] (list_ascii_of_string "Die Mauer (1) fiel 1989.")).
  reflexivity.
Defined.

End AnalysisPanelExtra.

(* ========================================================================== *)
(** * Selection, transfer and analysis                                         *)
(* ========================================================================== *)

Module AppStoreExtra.
Import Types AppStore AppStoreActions AppStoreFacts.
Open Scope Z_scope.

Ltac zeqb_to_prop :=
  repeat match goal with
         | H : (_ =? _) = true |- _ => apply Z.eqb_eq in H
         | H : (_ =? _) = false |- _ => apply Z.eqb_neq in H
         end.

Lemma includes_In (l : list Z) (x : Z) : includes l x = true <-> In x l.
Proof.
  unfold includes. rewrite existsb_exists. split.
  - intros [y [Hy Heq]]. apply Z.eqb_eq in Heq. subst. exact Hy.
  - intros H. exists x. split; [exact H|apply Z.eqb_refl].
Qed.

Lemma includes_app (l1 l2 : list Z) (x : Z) :
  includes (l1 ++ l2) x = includes l1 x || includes l2 x.
Proof. unfold includes. apply existsb_app. Qed.

Lemma includes_filter_neq (l : list Z) (k j : Z) :
  includes (filter (fun i => negb (i =? k)) l) j = negb (j =? k) && includes l j.
Proof.
  unfold includes. induction l as [|x t IH]; simpl;
    [destruct (j =? k); reflexivity|].
  destruct (x =? k) eqn:Hx; simpl; rewrite ?IH;
    destruct (j =? k) eqn:Hj; destruct (j =? x) eqn:Hjx; simpl;
    try reflexivity; zeqb_to_prop; lia.
Qed.

Lemma filter_id_in {A : Type} (f : A -> bool) (l : list A) :
  (forall x, In x l -> f x = true) -> filter f l = l.
Proof.
  induction l as [|x t IH]; intros H; simpl; [reflexivity|].
  rewrite (H x (or_introl eq_refl)), IH; [reflexivity|].
  intros y Hy. exact (H y (or_intror Hy)).
Qed.

Lemma filter_neq_length (l : list Z) (k : Z) :
  NoDup l -> In k l ->
  List.length (filter (fun i => negb (i =? k)) l) = (List.length l - 1)%nat.
Proof.
  induction l as [|x t IH]; intros Hnd Hin; [destruct Hin|].
  apply NoDup_cons_iff in Hnd. destruct Hnd as [Hx Hnd]. simpl.
  destruct (x =? k) eqn:Hxk; simpl.
  - apply Z.eqb_eq in Hxk. subst x.
    rewrite filter_id_in; [lia|].
    intros y Hy. destruct (y =? k) eqn:Hyk; [|reflexivity].
    apply Z.eqb_eq in Hyk. subst y. contradiction.
  - apply Z.eqb_neq in Hxk.
    destruct Hin as [->|Hin]; [contradiction|].
    rewrite (IH Hnd Hin).
    destruct t; [destruct Hin|]. simpl. lia.
Qed.

Lemma ids_NoDup (a n : nat) : NoDup (map (fun i => Z.of_nat i + 1) (seq a n)).
Proof.
  revert a; induction n as [|n IH]; intros a; simpl; constructor; [|apply IH].
  intros Hin. apply in_map_iff in Hin. destruct Hin as [i [Hi Hin]].
  apply in_seq in Hin. lia.
Qed.

Lemma performSearch_ok (api : string -> ApiOutcome) (searchType : string)
    (st : AppState) (data : SearchResults) :
  api (endpoint searchType) = ApiOk data ->
  performSearch api searchType st
  = mkAppState (activeTab st) false None
      (Some (mkSearchResults (chunksWithIds (chunks data)) (search_time data)
               (total_chunks_found data)))
      (map id (chunksWithIds (chunks data)))
      (isAnalyzing st) (analysisError st) [] None.
Proof. intros Hapi. unfold performSearch. rewrite Hapi. reflexivity. Qed.

(** [toggleChunkSelection k] flips whether [k] is selected and leaves
    whether any other id is selected as it was. *)
Theorem toggleChunkSelection_membership (k : Z) (st : AppState) (j : Z) :
  includes (selectedChunkIds (toggleChunkSelection k st)) j
  = if j =? k then negb (includes (selectedChunkIds st) k)
    else includes (selectedChunkIds st) j.
Proof.
  unfold toggleChunkSelection. simpl.
  destruct (includes (selectedChunkIds st) k) eqn:Hk.
  - rewrite includes_filter_neq.
    destruct (j =? k) eqn:Hj; simpl; [reflexivity|].
    reflexivity.
  - rewrite includes_app. unfold includes at 2. simpl.
    destruct (j =? k) eqn:Hj; simpl.
    + rewrite orb_true_r. reflexivity.
    + rewrite orb_false_r. reflexivity.
Qed.

(** A selection without duplicates stays without duplicates under
    [toggleChunkSelection]. *)
Theorem toggleChunkSelection_NoDup (k : Z) (st : AppState) :
  NoDup (selectedChunkIds st) -> NoDup (selectedChunkIds (toggleChunkSelection k st)).
Proof.
  intros Hnd. unfold toggleChunkSelection. simpl.
  destruct (includes (selectedChunkIds st) k) eqn:Hk.
  - apply NoDup_filter. exact Hnd.
  - apply (Permutation_NoDup (Permutation_cons_append (selectedChunkIds st) k)).
    constructor; [|exact Hnd].
    intros Hin. apply includes_In in Hin. congruence.
Qed.

Lemma toggleChunkSelection_NoDup_witness :
  NoDup [1; 3] /\ NoDup (selectedChunkIds (toggleChunkSelection 2
      (mkAppState 0 false None None [1; 3] false None [] None))).
Proof.
  split; [repeat constructor; simpl; lia|].
  apply (toggleChunkSelection_NoDup 2 (mkAppState 0 false None None [1; 3] false None [] None)).
  simpl. repeat constructor; simpl; lia.
Defined.

(** Toggling an unselected id twice gives back the state it started from. *)
Theorem toggleChunkSelection_twice (k : Z) (st : AppState) :
  includes (selectedChunkIds st) k = false ->
  toggleChunkSelection k (toggleChunkSelection k st) = st.
Proof.
  intros Hk. unfold toggleChunkSelection at 2. rewrite Hk.
  unfold toggleChunkSelection. simpl.
  replace (includes (selectedChunkIds st ++ [k]) k) with true
    by (symmetry; apply includes_In; apply in_or_app; right; left; reflexivity).
  rewrite filter_app. simpl. rewrite Z.eqb_refl. simpl. rewrite app_nil_r.
  rewrite filter_id_in.
  - destruct st; reflexivity.
  - intros y Hy. destruct (y =? k) eqn:Hyk; [|reflexivity].
    apply Z.eqb_eq in Hyk. subst y. apply includes_In in Hy. congruence.
Qed.

Lemma toggleChunkSelection_twice_witness :
  includes [1; 3] 2 = false
  /\ toggleChunkSelection 2 (toggleChunkSelection 2
        (mkAppState 0 false None None [1; 3] false None [] None))
     = mkAppState 0 false None None [1; 3] false None [] None.
Proof.
  split; [reflexivity|].
  apply (toggleChunkSelection_twice 2 (mkAppState 0 false None None [1; 3] false None [] None)).
  reflexivity.
Defined.

(** After a successful search returning at least one chunk, every chunk is
    selected, so the first click on the header checkbox of ResultsDisplay
    deselects all of them and the second click selects them again, giving
    back the state the search left. *)
Theorem headerClick_round_trip (api : string -> ApiOutcome) (searchType : string)
    (st : AppState) (data : SearchResults) :
  api (endpoint searchType) = ApiOk data -> chunks data <> [] ->
  exists st3,
    headerClick (performSearch api searchType st) = Some st3
    /\ selectedChunkIds st3 = []
    /\ headerClick st3 = Some (performSearch api searchType st).
Proof.
  intros Hapi Hne. rewrite (performSearch_ok api searchType st data Hapi).
  destruct (chunks data) as [|c t] eqn:Hc; [contradiction|].
  exists (deselectAllChunks (mkAppState (activeTab st) false None
      (Some (mkSearchResults (chunksWithIds (c :: t)) (search_time data)
               (total_chunks_found data)))
      (map id (chunksWithIds (c :: t))) (isAnalyzing st) (analysisError st) [] None)).
  split; [|split].
  - unfold headerClick. simpl. rewrite length_map, with_ids_from_length, Nat.eqb_refl.
    reflexivity.
  - reflexivity.
  - reflexivity.
Qed.

Lemma headerClick_round_trip_witness :
  let data := mkSearchResults
      [mkChunk 0 "a"%string (mkChunkMetadata None None) 1 None] (1 # 10) 1 in
  let api := fun (_ : string) => ApiOk data in
  (api (endpoint "standard") = ApiOk data /\ chunks data <> []) /\
  exists st3,
    headerClick (performSearch api "standard" initialState) = Some st3
    /\ selectedChunkIds st3 = []
    /\ headerClick st3 = Some (performSearch api "standard" initialState).
Proof.
  intros data api. split; [split; [reflexivity|discriminate]|].
  apply (headerClick_round_trip api "standard" initialState data);
    [reflexivity|discriminate].
Defined.

Lemma transfer_after_search_lemma (api : string -> ApiOutcome) (searchType : string)
    (st : AppState) (data : SearchResults) :
  api (endpoint searchType) = ApiOk data ->
  let st2 := performSearch api searchType st in
  let st3 := transferChunksForAnalysis st2 in
  match chunks data with
  | [] => st3 = st2
  | _ :: _ =>
      transferredChunks st3 = chunksWithIds (chunks data)
      /\ activeTab st3 = 1 /\ analysisResult st3 = None
      /\ searchResults st3 = searchResults st2
      /\ selectedChunkIds st3 = selectedChunkIds st2
  end.
Proof.
  intros Hapi st2 st3. subst st2 st3.
  rewrite (performSearch_ok api searchType st data Hapi).
  assert (List.length (chunksWithIds (chunks data)) = List.length (chunks data)) as Hlen
    by apply with_ids_from_length.
  remember (chunksWithIds (chunks data)) as cws eqn:Hcws.
  unfold transferChunksForAnalysis. cbn [searchResults selectedChunkIds chunks].
  rewrite length_map, Hlen.
  destruct (chunks data) as [|c t] eqn:Hc; [reflexivity|].
  cbn [List.length Nat.eqb].
  split; [|repeat split].
  cbn [transferredChunks]. apply filter_id_in.
  intros x Hx. apply includes_In. apply in_map. exact Hx.
Qed.

(** Right after a successful search, [transferChunksForAnalysis] moves every
    returned chunk, in order, opens the Analyse tab and clears the analysis
    result; with no chunks returned the selection is empty and the transfer
    changes nothing. *)
Theorem transfer_after_search (api : string -> ApiOutcome) (searchType : string)
    (st : AppState) (data : SearchResults) :
  api (endpoint searchType) = ApiOk data ->
  let st2 := performSearch api searchType st in
  let st3 := transferChunksForAnalysis st2 in
  match chunks data with
  | [] => st3 = st2
  | _ :: _ =>
      transferredChunks st3 = chunksWithIds (chunks data)
      /\ activeTab st3 = 1 /\ analysisResult st3 = None
      /\ searchResults st3 = searchResults st2
      /\ selectedChunkIds st3 = selectedChunkIds st2
  end.
Proof. apply transfer_after_search_lemma. Qed.

Lemma transfer_after_search_witness :
  let data := mkSearchResults
      [mkChunk 0 "a"%string (mkChunkMetadata None None) 1 None;
       mkChunk 0 "b"%string (mkChunkMetadata None None) (1 # 2) None] (1 # 10) 2 in
  let api := fun (_ : string) => ApiOk data in
  api (endpoint "llm") = ApiOk data /\
  let st2 := performSearch api "llm" initialState in
  let st3 := transferChunksForAnalysis st2 in
  match chunks data with
  | [] => st3 = st2
  | _ :: _ =>
      transferredChunks st3 = chunksWithIds (chunks data)
      /\ activeTab st3 = 1 /\ analysisResult st3 = None
      /\ searchResults st3 = searchResults st2
      /\ selectedChunkIds st3 = selectedChunkIds st2
  end.
Proof.
  intros data api. split; [reflexivity|].
  apply (transfer_after_search api "llm" initialState data). reflexivity.
Defined.

(** After a successful search of [N >= 2] chunks, unselecting the chunk with
    id [k] ([1 <= k <= N]) and transferring moves exactly the other [N - 1]
    chunks, in result order. *)
Theorem toggle_then_transfer (api : string -> ApiOutcome) (searchType : string)
    (st : AppState) (data : SearchResults) (k : Z) :
  api (endpoint searchType) = ApiOk data ->
  1 <= k <= Z.of_nat (List.length (chunks data)) ->
  (2 <= List.length (chunks data))%nat ->
  let st3 := transferChunksForAnalysis
               (toggleChunkSelection k (performSearch api searchType st)) in
  transferredChunks st3
  = filter (fun c => negb (id c =? k)) (chunksWithIds (chunks data))
  /\ List.length (transferredChunks st3) = (List.length (chunks data) - 1)%nat.
Proof.
  intros Hapi Hk HN st3. subst st3.
  rewrite (performSearch_ok api searchType st data Hapi).
  set (cws := chunksWithIds (chunks data)).
  assert (map id cws = map (fun i => Z.of_nat i + 1) (seq 0 (List.length (chunks data))))
    as Hids by apply with_ids_from_ids.
  assert (List.length cws = List.length (chunks data)) as Hlen
    by apply with_ids_from_length.
  assert (In k (map id cws)) as Hin.
  { rewrite Hids. apply in_map_iff. exists (Z.to_nat (k - 1)).
    split; [lia|]. apply in_seq. lia. }
  assert (NoDup (map id cws)) as Hnd by (rewrite Hids; apply ids_NoDup).
  assert (List.length (filter (fun i => negb (i =? k)) (map id cws))
          = (List.length (chunks data) - 1)%nat) as Hfl.
  { rewrite (filter_neq_length _ _ Hnd Hin), length_map, Hlen. reflexivity. }
  assert (filter (fun c => includes (filter (fun i => negb (i =? k)) (map id cws)) (id c)) cws
          = filter (fun c => negb (id c =? k)) cws) as Hf.
  { apply filter_ext_in. intros c Hc. rewrite includes_filter_neq.
    replace (includes (map id cws) (id c)) with true
      by (symmetry; apply includes_In; apply in_map; exact Hc).
    apply andb_true_r. }
  unfold toggleChunkSelection. simpl.
  replace (includes (map id cws) k) with true by (symmetry; apply includes_In; exact Hin).
  unfold transferChunksForAnalysis. simpl.
  rewrite Hfl.
  replace ((List.length (chunks data) - 1 =? 0)%nat) with false
    by (symmetry; apply Nat.eqb_neq; lia).
  simpl. rewrite Hf. split; [reflexivity|].
  rewrite <- Hfl, filter_map_swap, length_map. reflexivity.
Qed.

Lemma toggle_then_transfer_witness :
  let data := mkSearchResults
      [mkChunk 0 "a"%string (mkChunkMetadata None None) 1 None;
       mkChunk 0 "b"%string (mkChunkMetadata None None) (1 # 2) None;
       mkChunk 0 "c"%string (mkChunkMetadata None None) (1 # 4) None] (1 # 10) 3 in
  let api := fun (_ : string) => ApiOk data in
  (api (endpoint "standard") = ApiOk data
   /\ 1 <= 2 <= Z.of_nat (List.length (chunks data))
   /\ (2 <= List.length (chunks data))%nat) /\
  let st3 := transferChunksForAnalysis
               (toggleChunkSelection 2 (performSearch api "standard" initialState)) in
  transferredChunks st3
  = filter (fun c => negb (id c =? 2)) (chunksWithIds (chunks data))
  /\ List.length (transferredChunks st3) = (List.length (chunks data) - 1)%nat.
Proof.
  intros data api. split; [split; [reflexivity|split; simpl; lia]|].
  apply (toggle_then_transfer api "standard" initialState data 2);
    [reflexivity|simpl; lia|simpl; lia].
Defined.

Lemma strip_id_set_id (c : Chunk) (i : Z) : strip_id (set_id c i) = strip_id c.
Proof. reflexivity. Qed.

Lemma strip_with_ids (index : nat) (cs : list Chunk) :
  map strip_id (with_ids_from index cs) = map strip_id cs.
Proof.
  revert index; induction cs as [|c t IH]; intros index; simpl; [reflexivity|].
  rewrite IH. reflexivity.
Qed.

(** Search, transfer, analysis: the chunks posted to [/api/search/analyze]
    are the chunks of the search response, in order, without the client
    side [id] the store gave them. *)
Theorem search_transfer_analyze_payload (api : string -> ApiOutcome)
    (searchType : string) (st : AppState) (data : SearchResults)
    (aapi : list ChunkPayload -> AnalysisOutcome) :
  api (endpoint searchType) = ApiOk data -> chunks data <> [] ->
  snd (performAnalysis aapi
         (transferChunksForAnalysis (performSearch api searchType st)))
  = Some (map strip_id (chunks data)).
Proof.
  intros Hapi Hne.
  pose proof (transfer_after_search_lemma api searchType st data Hapi) as H.
  destruct (chunks data) as [|c t] eqn:Hc; [contradiction|].
  destruct H as [Ht _].
  unfold performAnalysis. rewrite Ht.
  unfold chunksWithIds. simpl.
  destruct (aapi _); simpl; f_equal; f_equal; apply strip_with_ids.
Qed.

Lemma search_transfer_analyze_payload_witness :
  let data := mkSearchResults
      [mkChunk 0 "a"%string (mkChunkMetadata (Some "Titel"%string) None) 1 None;
       mkChunk 0 "b"%string (mkChunkMetadata None None) (1 # 2) (Some (7 # 10))] (1 # 10) 2 in
  let api := fun (_ : string) => ApiOk data in
  let aapi := fun (_ : list ChunkPayload) => AnalysisOk (mkAnalysisResult "x" "m") in
  (api (endpoint "standard") = ApiOk data /\ chunks data <> []) /\
  snd (performAnalysis aapi
         (transferChunksForAnalysis (performSearch api "standard" initialState)))
  = Some (map strip_id (chunks data)).
Proof.
  intros data api aapi. split; [split; [reflexivity|discriminate]|].
  apply (search_transfer_analyze_payload api "standard" initialState data aapi);
    [reflexivity|discriminate].
Defined.


(** What every run of completed actions keeps, from the store's initial
    state: no search and no analysis is pending, the chunks of the search
    results carry the ids [1 .. N] in order, and every transferred chunk is
    a chunk of the current search results. *)
Definition store_invariant (st : AppState) : Prop :=
  isSearching st = false /\ isAnalyzing st = false
  /\ (forall r, searchResults st = Some r ->
        map id (chunks r) = map (fun i => Z.of_nat i + 1) (seq 0 (List.length (chunks r))))
  /\ (forall c, In c (transferredChunks st) ->
        exists r, searchResults st = Some r /\ In c (chunks r)).

Lemma set_selectedChunkIds_invariant (sel : list Z) (st : AppState) :
  store_invariant st -> store_invariant (set_selectedChunkIds sel st).
Proof. exact (fun H => H). Qed.

Lemma step_invariant (a : Action) (st : AppState) :
  store_invariant st -> store_invariant (step a st).
Proof.
  intros Hst.
  destruct a as [t|api searchType|k| | | |aapi]; unfold step.
  - exact Hst.
  - destruct Hst as (Hs & Ha & Hids & Htr). unfold performSearch.
    destruct (api (endpoint searchType)) as [data|err]; simpl;
      (split; [reflexivity|split; [exact Ha|split]]).
    + intros r Hr. injection Hr as <-. simpl.
      unfold chunksWithIds. rewrite with_ids_from_ids, with_ids_from_length.
      reflexivity.
    + intros c [].
    + intros r Hr. discriminate.
    + intros c [].
  - apply set_selectedChunkIds_invariant. exact Hst.
  - unfold selectAllChunks.
    destruct (searchResults st); [apply set_selectedChunkIds_invariant|]; exact Hst.
  - apply set_selectedChunkIds_invariant. exact Hst.
  - unfold transferChunksForAnalysis.
    destruct (searchResults st) as [r|] eqn:Hr; [|exact Hst].
    destruct (List.length (selectedChunkIds st) =? 0)%nat; [exact Hst|].
    destruct Hst as (Hs & Ha & Hids & Htr). rewrite Hr in Hids.
    split; [exact Hs|split; [exact Ha|split; [exact Hids|]]].
    intros c Hc. simpl in Hc. apply filter_In in Hc.
    exists r. split; [reflexivity|exact (proj1 Hc)].
  - destruct Hst as (Hs & Ha & Hids & Htr). unfold performAnalysis.
    destruct (transferredChunks st) as [|c t] eqn:Ht.
    + split; [exact Hs|split; [exact Ha|split; [exact Hids|]]].
      simpl. intros c [].
    + destruct (aapi (map strip_id (c :: t)));
        (split; [exact Hs|split; [reflexivity|split; [exact Hids|]]]);
        simpl; exact Htr.
Qed.

(** Every sequence of completed store actions from the initial state leaves
    no search or analysis pending, keeps the result chunks numbered
    [1 .. N] in order, and never holds a transferred chunk that is not a
    chunk of the current search results. *)
Theorem run_store_invariant (acts : list Action) :
  store_invariant (run acts initialState).
Proof.
  unfold run.
  assert (forall st, store_invariant st ->
            store_invariant (fold_left (fun s a => step a s) acts st)) as H.
  { induction acts as [|a acts IH]; intros st Hst; simpl; [exact Hst|].
    apply IH. apply step_invariant. exact Hst. }
  apply H. repeat split; try reflexivity.
  - intros r Hr. discriminate.
  - intros c [].
Qed.

End AppStoreExtra.

(* ========================================================================== *)
(** * The mean and the histogram of the ViolinPlot                             *)
(* ========================================================================== *)

Module ScoreVisualizationExtra.
Import Types ScoreVisualization ScoreVisualizationBins ScoreVisualizationFacts.
Open Scope Q_scope.

Lemma calculateStats_fields (scores : list Q) :
  scores <> [] ->
  exists st,
    calculateStats scores = Some st
    /\ min st = Some (nth 0 (sort_numbers scores) 0)
    /\ max st = Some (nth (List.length scores - 1) (sort_numbers scores) 0)
    /\ mean st = fold_left Qplus scores 0 / inject_Z (Z.of_nat (List.length scores)).
Proof.
  intros Hne.
  pose proof (Permutation_length (sort_numbers_perm scores)) as Hlen.
  assert (1 <= List.length scores)%nat as Hn.
  { destruct scores; [congruence|simpl; lia]. }
  unfold calculateStats.
  destruct scores as [|s0 rest] eqn:Hs; [congruence|].
  rewrite <- Hs in *.
  eexists. split; [reflexivity|]. cbn [min max mean].
  rewrite Hlen.
  split; [|split; [|reflexivity]].
  - rewrite js_index_nth by lia. reflexivity.
  - rewrite js_index_nth by lia.
    replace (Z.to_nat (Z.of_nat (List.length scores) - 1))
      with (List.length scores - 1)%nat by lia.
    reflexivity.
Qed.

Lemma sorted_ends (scores : list Q) (s : Q) :
  In s scores ->
  nth 0 (sort_numbers scores) 0 <= s
  /\ s <= nth (List.length scores - 1) (sort_numbers scores) 0.
Proof.
  intros Hs.
  pose proof (sort_numbers_perm scores) as Hperm.
  pose proof (Permutation_length Hperm) as Hlen.
  apply (Permutation_in _ (Permutation_sym Hperm)) in Hs.
  apply In_nth with (d := 0) in Hs. destruct Hs as (k & Hk & <-).
  split; apply sorted_nth_le; try apply sort_numbers_sorted; lia.
Qed.





Lemma incr_nth_length (l : list Z) (i : nat) :
  List.length (incr_nth l i) = List.length l.
Proof.
  revert i; induction l as [|x t IH]; intros [|i]; simpl; try reflexivity.
  rewrite IH. reflexivity.
Qed.

Lemma incr_nth_sum (l : list Z) (i : nat) :
  (i < List.length l)%nat -> sum_list (incr_nth l i) = (sum_list l + 1)%Z.
Proof.
  revert i; induction l as [|x t IH]; intros [|i] Hi; simpl in Hi |- *; try lia.
  unfold sum_list in *. simpl. rewrite IH by lia. lia.
Qed.

Lemma array_incr_spec (l : list Z) (i : Z) :
  List.length (array_incr l i) = List.length l
  /\ sum_list (array_incr l i)
     = (sum_list l + if (0 <=? i)%Z && (i <? Z.of_nat (List.length l))%Z then 1 else 0)%Z.
Proof.
  unfold array_incr.
  destruct ((0 <=? i)%Z && (i <? Z.of_nat (List.length l))%Z) eqn:H.
  - apply andb_prop in H. destruct H as [H1 H2].
    apply Z.leb_le in H1. apply Z.ltb_lt in H2.
    split; [apply incr_nth_length|]. apply incr_nth_sum. lia.
  - split; [reflexivity|]. lia.
Qed.

(** A [forEach] whose every step keeps ten bins and adds one to their total
    exactly for the scores it counts. *)
Lemma fold_counts (step : list Z -> Q -> list Z) (counted : Q -> bool) (l : list Q) :
  (forall acc s, In s l -> List.length acc = Z.to_nat bins ->
     List.length (step acc s) = Z.to_nat bins
     /\ sum_list (step acc s) = (sum_list acc + if counted s then 1 else 0)%Z) ->
  forall acc, List.length acc = Z.to_nat bins ->
    List.length (fold_left step l acc) = Z.to_nat bins
    /\ sum_list (fold_left step l acc)
       = (sum_list acc + Z.of_nat (List.length (filter counted l)))%Z.
Proof.
  induction l as [|s t IH]; intros Hstep acc Hacc; simpl.
  - split; [exact Hacc|lia].
  - destruct (Hstep acc s (or_introl eq_refl) Hacc) as [H1 H2].
    destruct (IH (fun acc' s' Hs' => Hstep acc' s' (or_intror Hs')) (step acc s) H1)
      as [H3 H4].
    split; [exact H3|]. rewrite H4, H2.
    destruct (counted s); simpl List.length; lia.
Qed.

Lemma empty_bins_spec : List.length empty_bins = Z.to_nat bins /\ sum_list empty_bins = 0%Z.
Proof. split; reflexivity. Qed.



Lemma fold_left_Zmax_ge (t : list Z) (x : Z) :
  (x <= fold_left Z.max t x)%Z /\ (forall y, In y t -> y <= fold_left Z.max t x)%Z.
Proof.
  revert x; induction t as [|y t IH]; intros x; simpl; [split; [lia|intros _ []]|].
  destruct (IH (Z.max x y)) as [H1 H2]. split; [lia|].
  intros z [<-|Hz]; [lia|exact (H2 z Hz)].
Qed.

Lemma sum_pos_exists (l : list Z) :
  (0 < sum_list l)%Z -> exists x, In x l /\ (1 <= x)%Z.
Proof.
  induction l as [|x t IH]; unfold sum_list; simpl; [lia|]. fold (sum_list t).
  intros H. destruct (Z_le_gt_dec 1 x) as [Hx|Hx].
  - exists x. split; [left; reflexivity|exact Hx].
  - destruct (IH ltac:(lia)) as [y [Hy Hy1]]. exists y. split; [right; exact Hy|exact Hy1].
Qed.

(** The histogram of the dynamic-axis ViolinPlot, for scores in [[0, 1]]
    and the axis built from their [calculateStats] min and max: ten bins,
    every score counted exactly once, and [Math.max(...binCounts)] at least
    1, so the bar widths [count / maxBinCount] never divide by zero. *)
Theorem binCounts_scaled_counts (scores : list Q) (st : Stats) (mn mx : Q) :
  calculateStats scores = Some st -> min st = Some mn -> max st = Some mx ->
  (forall s, In s scores -> 0 <= s <= 1) ->
  let (yMin, yRange) := y_axis mn mx in
  List.length (binCounts_scaled yMin yRange scores) = Z.to_nat bins
  /\ sum_list (binCounts_scaled yMin yRange scores) = Z.of_nat (List.length scores)
  /\ exists m, math_max (binCounts_scaled yMin yRange scores) = Some m /\ (1 <= m)%Z.
Proof.
  intros Hc Hmin Hmax Hr.
  assert (scores <> []) as Hne by (intros ->; discriminate).
  destruct (calculateStats_fields scores Hne) as (st' & Hc' & Hmin' & Hmax' & _).
  rewrite Hc in Hc'. injection Hc' as <-.
  rewrite Hmin in Hmin'. injection Hmin' as ->.
  rewrite Hmax in Hmax'. injection Hmax' as ->.
  assert (In (nth 0 (sort_numbers scores) 0) scores /\
          In (nth (List.length scores - 1) (sort_numbers scores) 0) scores) as [Hi0 Hi1].
  { pose proof (sort_numbers_perm scores) as Hperm.
    pose proof (Permutation_length Hperm) as Hlen.
    assert (1 <= List.length scores)%nat by (destruct scores; [congruence|simpl; lia]).
    split; apply (Permutation_in _ Hperm); apply nth_In; lia. }
  pose proof (binIndex_scaled_bounds (nth 0 (sort_numbers scores) 0)
                (nth (List.length scores - 1) (sort_numbers scores) 0)) as Hb.
  destruct (y_axis (nth 0 (sort_numbers scores) 0)
              (nth (List.length scores - 1) (sort_numbers scores) 0)) as [yMin yRange].
  cbn [fst snd] in Hb.
  unfold binCounts_scaled.
  destruct (fold_counts (fun binCounts score =>
               if (0 <=? binIndex_scaled yMin yRange score)%Z
                  && (binIndex_scaled yMin yRange score <? bins)%Z
               then array_incr binCounts (binIndex_scaled yMin yRange score) else binCounts)
              (fun _ => true) scores) with (acc := empty_bins)
    as [H1 H2]; [|reflexivity|].
  - intros acc s Hs Hacc.
    destruct (sorted_ends scores s Hs) as [Hlo Hhi].
    destruct (Hb s (proj1 (Hr _ Hi0)) Hlo Hhi (proj2 (Hr _ Hi1))) as [Hb0 Hb1].
    replace ((0 <=? binIndex_scaled yMin yRange s)%Z
             && (binIndex_scaled yMin yRange s <? bins)%Z) with true
      by (symmetry; apply andb_true_intro; split; [apply Z.leb_le|apply Z.ltb_lt]; lia).
    destruct (array_incr_spec acc (binIndex_scaled yMin yRange s)) as [L S].
    split; [rewrite L; exact Hacc|]. rewrite S, Hacc.
    change (Z.of_nat (Z.to_nat bins)) with bins.
    replace ((0 <=? binIndex_scaled yMin yRange s)%Z
             && (binIndex_scaled yMin yRange s <? bins)%Z) with true
      by (symmetry; apply andb_true_intro; split; [apply Z.leb_le|apply Z.ltb_lt]; lia).
    reflexivity.
  - rewrite filter_true in H2. rewrite (proj2 empty_bins_spec) in H2.
    split; [exact H1|]. split; [rewrite H2; reflexivity|].
    set (counts := fold_left _ scores empty_bins) in *.
    assert (0 < sum_list counts)%Z as Hpos
      by (rewrite H2; destruct scores; [congruence|simpl; lia]).
    destruct (sum_pos_exists counts Hpos) as [y [Hy Hy1]].
    destruct counts as [|x t]; [destruct Hy|].
    exists (fold_left Z.max t x). split; [reflexivity|].
    destruct (fold_left_Zmax_ge t x) as [Hx Ht].
    destruct Hy as [<-|Hy]; [lia|]. specialize (Ht y Hy). lia.
Qed.

Lemma binCounts_scaled_counts_witness :
  exists st,
    (calculateStats [3 # 10; 9 # 10; 1 # 2] = Some st /\ min st = Some (3 # 10)
     /\ max st = Some (9 # 10)
     /\ (forall s, In s [3 # 10; 9 # 10; 1 # 2] -> 0 <= s <= 1)) /\
    let (yMin, yRange) := y_axis (3 # 10) (9 # 10) in
    List.length (binCounts_scaled yMin yRange [3 # 10; 9 # 10; 1 # 2]) = Z.to_nat bins
    /\ sum_list (binCounts_scaled yMin yRange [3 # 10; 9 # 10; 1 # 2])
       = Z.of_nat (List.length [3 # 10; 9 # 10; 1 # 2])
    /\ exists m, math_max (binCounts_scaled yMin yRange [3 # 10; 9 # 10; 1 # 2])
                 = Some m /\ (1 <= m)%Z.
Proof.
  eexists. split.
  - split; [reflexivity|split; [reflexivity|split; [reflexivity|]]].
    intros s Hs. simpl in Hs.
    destruct Hs as [<-|[<-|[<-|[]]]]; split; vm_compute; discriminate.
  - eapply (binCounts_scaled_counts [3 # 10; 9 # 10; 1 # 2]); [reflexivity|reflexivity|reflexivity|].
    intros s Hs. simpl in Hs.
    destruct Hs as [<-|[<-|[<-|[]]]]; split; vm_compute; discriminate.
Defined.

End ScoreVisualizationExtra.
